(** * Digicloset: the GPU load-test harness, the readiness probe and the logger

    A shallow embedding of
      - [Digicloset_Update_Pack_All_13/loadtest/gpu_load_test.py]
        (module [LoadTest]),
      - [backend/app/health.py] (module [Health]),
      - [digicloset_enterprise_upgrade_pack/backend/logger.py]
        (module [Logger]),
    and the properties of them that the specification states.

    The load test is an asyncio program: one event loop, cooperative tasks
    that only give up control at an [await].  It is modelled as a
    transition system whose transitions are the atomic blocks between two
    suspension points of a worker; the order in which workers are resumed
    and what the endpoint answers are left to the environment, as a list
    of events. *)

From Stdlib Require Import ZArith QArith String List Permutation Lia.
From stdpp Require Import base list gmap strings.

Local Open Scope string_scope.
Local Open Scope Z_scope.

(** Python exceptions that the modelled code can raise or meet. *)
Inductive exn : Type :=
  | SystemExit (msg : string)
  | ZeroDivisionError
  | QueueFull
  | ValueError (msg : string)
  | ClientError (msg : string)
  | TimeoutError
  | CancelledError
  | KeyboardInterrupt
  | OSError (msg : string)
  | PostgresError (msg : string).

#[export] Instance exn_eq_dec : EqDecision exn.
Proof. solve_decision. Defined.

(** [isinstance(e, Exception)]: [SystemExit], [KeyboardInterrupt] and
    [asyncio.CancelledError] derive from [BaseException] only. *)
Definition is_Exception (e : exn) : bool :=
  match e with
  | SystemExit _ | KeyboardInterrupt | CancelledError => false
  | _ => true
  end.

(** [str(e)] *)
Definition str (e : exn) : string :=
  match e with
  | SystemExit m | ValueError m | ClientError m | OSError m
  | PostgresError m => m
  | ZeroDivisionError => "division by zero"
  | QueueFull | TimeoutError | CancelledError | KeyboardInterrupt => ""
  end.

(** Python floats are kept abstract: the harness only adds latencies,
    subtracts two clock readings and divides a sum by a length. *)
Class FloatOps (F : Type) : Type := {
  fzero : F;                 (* the integer 0 that [sum] starts from *)
  fadd : F → F → F;
  fsub : F → F → F;
  fdiv_int : F → Z → F       (* float / int, for a divisor that is not 0 *)
}.

#[export] Instance Q_FloatOps : FloatOps Q := {
  fzero := 0%Q;
  fadd := Qplus;
  fsub := Qminus;
  fdiv_int := fun x n => Qdiv x (inject_Z n)
}.

Module LoadTest.

(** ** Module level: lines 7-10 *)

(** [ENDPOINT = os.getenv('INFERENCE_ENDPOINT')]; [not ENDPOINT] holds for
    [None] and for the empty string. *)
Definition missing_msg : string := "Set INFERENCE_ENDPOINT in .env".

Definition load_module (env : option string) : exn + string :=
  match env with
  | None => inl (SystemExit missing_msg)
  | Some ep => if String.eqb ep "" then inl (SystemExit missing_msg) else inr ep
  end.

(** Exit status of the interpreter when an exception reaches the top level:
    [SystemExit] with a string argument prints it and exits with 1, and so
    does any other uncaught exception. *)
Definition exit_status (e : exn) : Z := 1.

(** ** Work items: line 29 *)

Record Params : Type := { quality : string }.
Record WorkItem : Type := { image_id : Z; params : Params }.

Definition payload (i : Z) : WorkItem :=
  {| image_id := i; params := {| quality := "low" |} |}.

(** [range(total)]: empty for a total that is zero or negative. *)
Definition range (total : Z) : list Z := Z.of_nat <$> seq 0 (Z.to_nat total).

Definition payloads (total : Z) : list WorkItem := payload <$> range total.

(** ** asyncio.Queue *)

(** A queue slot holds a work item or Python's [None], the value the worker
    loop tests for. *)
Record Queue : Type := {
  maxsize : Z;
  items : list (option WorkItem);
  unfinished_tasks : Z
}.

(** [asyncio.Queue(maxsize=0)] *)
Definition Queue_new (m : Z) : Queue :=
  {| maxsize := m; items := []; unfinished_tasks := 0 |}.

Definition qsize (q : Queue) : Z := Z.of_nat (length (items q)).

(** [full()]: a queue whose maxsize is not positive is never full. *)
Definition full (q : Queue) : bool :=
  if maxsize q <=? 0 then false else maxsize q <=? qsize q.

(** [put_nowait(item)]: raises [QueueFull] on a full queue, otherwise
    appends and counts one more unfinished task. *)
Definition put_nowait (x : option WorkItem) (q : Queue) : exn + Queue :=
  if full q then inl QueueFull
  else inr {| maxsize := maxsize q;
              items := items q ++ [x];
              unfinished_tasks := unfinished_tasks q + 1 |}.

(** [task_done()] *)
Definition task_done (q : Queue) : exn + Queue :=
  if unfinished_tasks q <=? 0
  then inl (ValueError "task_done() called too many times")
  else inr {| maxsize := maxsize q;
              items := items q;
              unfinished_tasks := unfinished_tasks q - 1 |}.

(** [join()] returns without waiting when no task is unfinished, and is
    woken up by the [task_done] that brings the counter to 0. *)
Definition join_ready (q : Queue) : bool := unfinished_tasks q <=? 0.

(** The fill loop of [main], lines 28-29. *)
Fixpoint put_all (xs : list WorkItem) (q : Queue) : exn + Queue :=
  match xs with
  | [] => inr q
  | x :: xs' =>
      match put_nowait (Some x) q with
      | inl e => inl e
      | inr q' => put_all xs' q'
      end
  end.

Definition fill (total : Z) : exn + Queue :=
  put_all (payloads total) (Queue_new 0).

Section Harness.
Context {F : Type} `{FloatOps F}.

(** ** The worker coroutine: lines 12-23 *)

(** Where a worker task stands.  [WGet] is the top of the loop, suspended in
    (or about to call) [q.get()]; [WPost] and [WText] are the two awaits of
    the HTTP exchange, with the item and the clock reading [t0] the worker
    holds; the last three are the ways a task is over. *)
Inductive Task : Type :=
  | WGet
  | WPost (item : WorkItem) (t0 : F)
  | WText (item : WorkItem) (t0 : F) (status : Z)
  | WReturned                          (* [break] on a [None] item *)
  | WRaised (item : WorkItem) (e : exn)
  | WCancelled.

(** The state shared by [main] and the workers.  [handled] is a ghost
    field: the item behind each entry of [results], in the same order. *)
Record State : Type := {
  q : Queue;
  workers : list Task;
  results : list (Z * F);
  handled : list WorkItem
}.

(** What the environment decides: which worker is resumed, what the clock
    reads, and how the endpoint answers. *)
Inductive event : Type :=
  | EvGet (w : nat) (t0 : F)       (* [q.get()] returns; [time.time()] is t0 *)
  | EvResp (w : nat) (status : Z)  (* [session.post] yields a response *)
  | EvBody (w : nat) (t1 : F)      (* [resp.text()] is read; the clock is t1 *)
  | EvExn (w : nat) (e : exn).     (* the exchange raises (error, timeout) *)

Definition set_worker (w : nat) (t : Task) (s : State) : State :=
  {| q := q s; workers := <[w := t]> (workers s);
     results := results s; handled := handled s |}.

Definition pop_queue (s : State) : State :=
  {| q := {| maxsize := maxsize (q s);
             items := tail (items (q s));
             unfinished_tasks := unfinished_tasks (q s) |};
     workers := workers s; results := results s; handled := handled s |}.

Definition record (item : WorkItem) (r : Z * F) (s : State) : State :=
  {| q := q s; workers := workers s;
     results := results s ++ [r]; handled := handled s ++ [item] |}.

Definition set_queue (q' : Queue) (s : State) : State :=
  {| q := q'; workers := workers s;
     results := results s; handled := handled s |}.

(** One atomic block of a worker.  [None]: the event cannot happen in this
    state (the worker is not at that await, or [get()] finds the queue
    empty and stays suspended). *)
Definition step (e : event) (s : State) : option State :=
  match e with
  | EvGet w t0 =>
      match workers s !! w, items (q s) with
      | Some WGet, None :: _ => Some (set_worker w WReturned (pop_queue s))
      | Some WGet, Some item :: _ =>
          Some (set_worker w (WPost item t0) (pop_queue s))
      | _, _ => None
      end
  | EvResp w status =>
      match workers s !! w with
      | Some (WPost item t0) => Some (set_worker w (WText item t0 status) s)
      | _ => None
      end
  | EvBody w t1 =>
      match workers s !! w with
      | Some (WText item t0 status) =>
          let s1 := record item (status, fsub t1 t0) s in
          match task_done (q s1) with
          | inl e => Some (set_worker w (WRaised item e) s1)
          | inr q' => Some (set_worker w WGet (set_queue q' s1))
          end
      | _ => None
      end
  | EvExn w e =>
      match workers s !! w with
      | Some (WPost item _) | Some (WText item _ _) =>
          Some (set_worker w (WRaised item e) s)
      | _ => None
      end
  end.

Fixpoint exec (evs : list event) (s : State) : option State :=
  match evs with
  | [] => Some s
  | e :: evs' =>
      match step e s with
      | Some s' => exec evs' s'
      | None => None
      end
  end.

(** ** main: lines 25-37 *)

(** [task.cancel()]: a task that is already over is left as it is. *)
Definition cancel (t : Task) : Task :=
  match t with
  | WGet | WPost _ _ | WText _ _ _ => WCancelled
  | _ => t
  end.

Record Summary : Type := { requests : nat; ok : nat; avg_latency : F }.

(** [sum(...)]: a left fold that starts from 0. *)
Definition py_sum (xs : list F) : F := fold_left fadd xs fzero.

(** Lines 36-37; the three values that the f-string prints. *)
Definition summary (rs : list (Z * F)) : exn + Summary :=
  let oks := filter (λ r, r.1 = 200) rs in
  match rs with
  | [] => inl ZeroDivisionError
  | _ => inr {| requests := length rs;
                ok := length oks;
                avg_latency :=
                  fdiv_int (py_sum (snd <$> rs)) (Z.of_nat (length rs)) |}
  end.

(** The state when [main] reaches [await q.join()]: the queue is filled,
    one task per [range(concurrency)] is created, nothing is recorded. *)
Definition main_start (concurrency total : Z) : exn + State :=
  match fill total with
  | inl e => inl e
  | inr q0 => inr {| q := q0;
                     workers := replicate (Z.to_nat concurrency) WGet;
                     results := []; handled := [] |}
  end.

(** What [main] does once [join] has returned: lines 34-37. *)
Definition main_finish (s : State) : State * (exn + Summary) :=
  ({| q := q s; workers := cancel <$> workers s;
      results := results s; handled := handled s |},
   summary (results s)).

(** [main], resumed after [await q.join()] in the state that the schedule
    [evs] of worker steps leads to, ends in [s] with [out]. *)
Definition run_from (s0 : State) (evs : list event)
    (s : State) (out : exn + Summary) : Prop :=
  ∃ s1, exec evs s0 = Some s1
    ∧ join_ready (q s1) = true
    ∧ main_finish s1 = (s, out).

Definition main_run (concurrency total : Z)
    (evs : list event) (s : State) (out : exn + Summary) : Prop :=
  ∃ s0, main_start concurrency total = inr s0 ∧ run_from s0 evs s out.

(** The two counts of the summary line. *)
Definition counts (out : exn + Summary) : exn + nat * nat :=
  match out with
  | inl e => inl e
  | inr sm => inr (requests sm, ok sm)
  end.

(** ** The script: lines 39-44, after the module-level check *)

Definition program_start (env : option string) (concurrency total : Z)
    : exn + State :=
  match load_module env with
  | inl e => inl e
  | inr _ => main_start concurrency total
  end.

(** ** Ghost accounting for the proofs *)

(** The queue slot a task has taken and not yet marked done. *)
Definition holds (t : Task) : list (option WorkItem) :=
  match t with
  | WGet | WCancelled => []
  | WPost item _ | WText item _ _ | WRaised item _ => [Some item]
  | WReturned => [None]
  end.

Definition held (ws : list Task) : list (option WorkItem) := ws ≫= holds.

(** The invariant of a run over the slots [all] that were enqueued: every
    slot is in exactly one of three places (behind a result, with a
    worker, still in the queue), the queue's counter counts the last two,
    and no task is cancelled while [main] waits. *)
Record Inv (all : list (option WorkItem)) (s : State) : Prop := {
  inv_perm : all ≡ₚ (Some <$> handled s) ++ held (workers s) ++ items (q s);
  inv_count :
    unfinished_tasks (q s) = Z.of_nat (length (held (workers s) ++ items (q s)));
  inv_len : length (results s) = length (handled s);
  inv_live : Forall (λ t, t ≠ WCancelled) (workers s)
}.

(** A run answered by a deterministic stub: every response carries the
    status the stub gives for the item, and the exchange raises exactly
    where the stub does. *)
Definition answers (stub : WorkItem → exn + Z) (e : event) (s : State) : bool :=
  match e with
  | EvResp w status =>
      match workers s !! w with
      | Some (WPost item _) => bool_decide (stub item = inr status)
      | _ => true
      end
  | EvExn w ex =>
      match workers s !! w with
      | Some (WPost item _) | Some (WText item _ _) =>
          bool_decide (stub item = inl ex)
      | _ => true
      end
  | _ => true
  end.

Fixpoint stub_run (stub : WorkItem → exn + Z) (evs : list event) (s : State)
    : bool :=
  match evs with
  | [] => true
  | e :: evs' =>
      answers stub e s &&
      match step e s with
      | Some s' => stub_run stub evs' s'
      | None => true
      end
  end.

(** Every recorded status, and every status a worker has received and not
    yet recorded, is the one the stub gives for the item. *)
Record Conforms (stub : WorkItem → exn + Z) (s : State) : Prop := {
  conf_results : inr <$> (results s).*1 = stub <$> handled s;
  conf_text : ∀ (w : nat) item t0 st,
    workers s !! w = Some (WText item t0 st) → stub item = inr st
}.

(** A run of [main] against the stub. *)
Definition main_run_stub (stub : WorkItem → exn + Z) (concurrency total : Z)
    (evs : list event) (s : State) (out : exn + Summary) : Prop :=
  ∃ s0, main_start concurrency total = inr s0
    ∧ stub_run stub evs s0 = true ∧ run_from s0 evs s out.

(** The awaits a task still has to pass before it is back at [q.get()],
    and the awaits left in a whole state when no exchange raises. *)
Definition awaits (t : Task) : nat :=
  match t with
  | WPost _ _ => 2
  | WText _ _ _ => 1
  | _ => 0
  end.

Definition work_left (s : State) : nat :=
  3 * length (items (q s)) + sum_list_with awaits (workers s).

(** The task has not been ended by an exception. *)
Definition not_raised (t : Task) : Prop :=
  match t with
  | WRaised _ _ => False
  | _ => True
  end.

(** The schedule that lets worker [w] serve one item after the other, the
    endpoint answering with the statuses [sts] in turn and every clock
    reading being [t]. *)
Definition serial (w : nat) (t : F) (sts : list Z) : list event :=
  sts ≫= (λ st, [EvGet w t; EvResp w st; EvBody w t]).

End Harness.

End LoadTest.

Module Health.

(** The values of the JSON objects the two probes return. *)
Inductive jval : Type :=
  | JBool (b : bool)
  | JStr (s : string).

(** [healthz] *)
Definition healthz : gmap string jval := {[ "status" := JStr "ok" ]}.

(** [try: body except Exception as e: handler(e)]: an exception that is not
    an instance of [Exception] passes through the clause. *)
Definition try_except_Exception {A : Type}
    (body : exn + A) (handler : exn → exn + A) : exn + A :=
  match body with
  | inl e => if is_Exception e then handler e else inl e
  | inr a => inr a
  end.

(** [readyz], lines 14-21.  [connect] is what awaiting
    [asyncpg.connect(os.getenv("DATABASE_URL"))] gives, [close] what
    awaiting [conn.close()] gives on the connection obtained. *)
Definition readyz {Conn : Type}
    (connect : exn + Conn) (close : Conn → exn + unit)
    : exn + gmap string jval :=
  try_except_Exception
    (match connect with
     | inl e => inl e
     | inr conn =>
         match close conn with
         | inl e => inl e
         | inr _ => inr {[ "ready" := JBool true ]}
         end
     end)
    (λ e, inr (<[ "error" := JStr (str e) ]> {[ "ready" := JBool false ]})).

End Health.

Module Logger.

(** [logging._nameToLevel] *)
Definition nameToLevel (name : string) : option Z :=
  if String.eqb name "CRITICAL" then Some 50
  else if String.eqb name "FATAL" then Some 50
  else if String.eqb name "ERROR" then Some 40
  else if String.eqb name "WARN" then Some 30
  else if String.eqb name "WARNING" then Some 30
  else if String.eqb name "INFO" then Some 20
  else if String.eqb name "DEBUG" then Some 10
  else if String.eqb name "NOTSET" then Some 0
  else None.

(** The two operations on [str] that [get_logger] reaches: [s.upper()], and
    [repr(s)] through the [%r] of the message of [_checkLevel].  Both follow
    the interpreter's Unicode tables (['ß'.upper()] is ['SS']), so they
    are taken as given. *)
Class StrOps : Type := {
  str_upper : string → string;
  str_repr : string → string
}.

(** For concrete runs, the two operations on ASCII text: [upper] maps the
    letters a-z; [repr] quotes with ['] unless the text has a ['] and no
    double quote, escapes the backslash and the quote used, writes tab,
    newline and carriage return as [\t], [\n], [\r] and the other
    control characters as [\xNN]. *)
Definition upper_ascii (c : Ascii.ascii) : Ascii.ascii :=
  let n := Ascii.nat_of_ascii c in
  if ((97 <=? n)%nat && (n <=? 122)%nat)%bool
  then Ascii.ascii_of_nat (n - 32) else c.

Fixpoint upper (s : string) : string :=
  match s with
  | EmptyString => EmptyString
  | String c s' => String (upper_ascii c) (upper s')
  end.

Definition hex_lower (n : nat) : Ascii.ascii :=
  Ascii.ascii_of_nat (if (n <? 10)%nat then 48 + n else 87 + n).

Fixpoint has_char (c : Ascii.ascii) (s : string) : bool :=
  match s with
  | EmptyString => false
  | String c' s' => (Ascii.eqb c c' || has_char c s')%bool
  end.

Definition repr_char (quote c : Ascii.ascii) : string :=
  let n := Ascii.nat_of_ascii c in
  let backslash := Ascii.ascii_of_nat 92 in
  if (Ascii.eqb c quote || (n =? 92)%nat)%bool
  then String backslash (String c "")
  else if (n =? 9)%nat then String backslash "t"
  else if (n =? 10)%nat then String backslash "n"
  else if (n =? 13)%nat then String backslash "r"
  else if ((n <? 32)%nat || (n =? 127)%nat)%bool
  then String backslash
         ("x" ++ String (hex_lower (n / 16))
                   (String (hex_lower (n mod 16)) ""))
  else String c "".

Fixpoint repr_body (quote : Ascii.ascii) (s : string) : string :=
  match s with
  | EmptyString => EmptyString
  | String c s' => repr_char quote c ++ repr_body quote s'
  end.

Definition repr (s : string) : string :=
  let single := Ascii.ascii_of_nat 39 in
  let double := Ascii.ascii_of_nat 34 in
  let quote :=
    if (has_char single s && negb (has_char double s))%bool
    then double else single in
  String quote (repr_body quote s ++ String quote "").

#[global] Instance ascii_StrOps : StrOps :=
  {| str_upper := upper; str_repr := repr |}.

Inductive Formatter : Type := JsonFormatter.

Inductive Handler : Type :=
  | RotatingFileHandler (file : string) (maxBytes backupCount : Z)
      (fmt : option Formatter)
  | StreamHandler (fmt : option Formatter).

Definition setFormatter (f : Formatter) (h : Handler) : Handler :=
  match h with
  | RotatingFileHandler file m b _ => RotatingFileHandler file m b (Some f)
  | StreamHandler _ => StreamHandler (Some f)
  end.

Record LoggerObj : Type := { level : Z; handlers : list Handler }.

(** What the operating system contributes: the environment variable, and
    whether creating the directory and opening the log file succeed. *)
Record OS : Type := {
  LOG_LEVEL : option string;
  dirname : string → string;
  makedirs : string → option exn;      (* [None]: no exception *)
  open_file : string → option exn
}.

(** [logging.getLogger(name)]: the logger registered under the name, made
    first (level NOTSET, no handler) when there is none.  A logger object
    is identified by its name; the hierarchy of loggers (parents, place
    holders) plays no part in [get_logger] and is left out, and the root
    logger is reached under one name only. *)
Definition getLogger (name : string) (reg : gmap string LoggerObj)
    : gmap string LoggerObj * LoggerObj :=
  match reg !! name with
  | Some lg => (reg, lg)
  | None =>
      let lg := {| level := 0; handlers := [] |} in (<[ name := lg ]> reg, lg)
  end.

(** [Logger.setLevel] with a level name: [_checkLevel] raises
    [ValueError("Unknown level: %r" % level)] on a name that is not in the
    table. *)
Definition setLevel `{StrOps} (lvl : string) (lg : LoggerObj)
    : exn + LoggerObj :=
  match nameToLevel lvl with
  | Some n => inr {| level := n; handlers := handlers lg |}
  | None => inl (ValueError ("Unknown level: " ++ str_repr lvl))
  end.

(** [Logger.addHandler] of a handler object that was just made: it is not
    among the logger's handlers yet, so it is appended. *)
Definition addHandler (h : Handler) (lg : LoggerObj) : LoggerObj :=
  {| level := level lg; handlers := handlers lg ++ [h] |}.

Definition default_log_file : string := "logs/app.log".

(** [get_logger], lines 19-32: the registry after the call, and the logger
    returned (by name) or the exception raised. *)
Definition get_logger `{StrOps} (os : OS) (name log_file : string)
    (reg : gmap string LoggerObj) : gmap string LoggerObj * (exn + string) :=
  let '(reg1, logger) := getLogger name reg in
  match handlers logger with
  | _ :: _ => (reg1, inr name)
  | [] =>
      match setLevel (str_upper (default "INFO" (LOG_LEVEL os))) logger with
      | inl e => (reg1, inl e)
      | inr logger1 =>
          let reg2 := <[ name := logger1 ]> reg1 in
          match makedirs os (dirname os log_file) with
          | Some e => (reg2, inl e)
          | None =>
              match open_file os log_file with
              | Some e => (reg2, inl e)
              | None =>
                  let handler :=
                    setFormatter JsonFormatter
                      (RotatingFileHandler log_file (5 * 1024 * 1024) 5 None) in
                  let logger2 := addHandler handler logger1 in
                  let sh := setFormatter JsonFormatter (StreamHandler None) in
                  let logger3 := addHandler sh logger2 in
                  (<[ name := logger3 ]> reg2, inr name)
              end
          end
      end
  end.

End Logger.

Module JsonLog.

Local Open Scope N_scope.
Local Open Scope list_scope.

(** ** JsonFormatter.format: logger.py, lines 7-17 *)

(** A Python [str] is the list of its code points; so is the text that
    [json.dumps] produces. *)
Definition of_ascii (s : string) : list N :=
  Ascii.N_of_ascii <$> String.list_ascii_of_string s.

(** ['{0:04x}'.format(n)] for a number below 0x10000: four lower-case
    hexadecimal digits. *)
Definition hex_digit (d : N) : N := if d <? 10 then 48 + d else 87 + d.

Definition hex4 (n : N) : list N :=
  [hex_digit (n / 4096 mod 16); hex_digit (n / 256 mod 16);
   hex_digit (n / 16 mod 16); hex_digit (n mod 16)].

(** The six characters of a [\uXXXX] escape. *)
Definition u_escape (n : N) : list N := [92; 117] ++ hex4 n.

(** What [json.encoder.py_encode_basestring_ascii] substitutes for one
    character: the short escapes of [ESCAPE_DCT], the character itself when
    it is printable ASCII, a [\uXXXX] escape for the rest of the basic
    plane, and a surrogate pair of escapes above it. *)
Definition escape_char (c : N) : list N :=
  if c =? 92 then [92; 92]
  else if c =? 34 then [92; 34]
  else if c =? 8 then [92; 98]
  else if c =? 12 then [92; 102]
  else if c =? 10 then [92; 110]
  else if c =? 13 then [92; 114]
  else if c =? 9 then [92; 116]
  else if (32 <=? c) && (c <=? 126) then [c]
  else if c <? 65536 then u_escape c
  else
    let n := c - 65536 in
    u_escape (N.lor 55296 (N.land (N.shiftr n 10) 1023))
    ++ u_escape (N.lor 56320 (N.land n 1023)).

Definition encode_basestring_ascii (s : list N) : list N :=
  [34] ++ (s ≫= escape_char) ++ [34].

(** [json.dumps] of a dict whose keys and values are strings, in insertion
    order, with the default separators. *)
Fixpoint dumps_items (d : list (list N * list N)) : list N :=
  match d with
  | [] => []
  | [(k, v)] =>
      encode_basestring_ascii k ++ of_ascii ": " ++ encode_basestring_ascii v
  | (k, v) :: d' =>
      encode_basestring_ascii k ++ of_ascii ": " ++ encode_basestring_ascii v
      ++ of_ascii ", " ++ dumps_items d'
  end.

Definition dumps (d : list (list N * list N)) : list N :=
  [123] ++ dumps_items d ++ [125].

(** What [format] reads from a [logging.LogRecord]: the ISO text of the
    creation time as [datetime] gives it, the level name, the logger name,
    the result of [getMessage()], and the text of [formatException] when
    [exc_info] is set. *)
Record LogRecord : Type := {
  created_iso : exn + list N;
  levelname : list N;
  name : list N;
  getMessage : exn + list N;
  exc_info : option (list N)
}.

Definition format (r : LogRecord) : exn + list N :=
  match created_iso r with
  | inl e => inl e
  | inr iso =>
      match getMessage r with
      | inl e => inl e
      | inr msg =>
          let payload :=
            [(of_ascii "timestamp", iso ++ of_ascii "Z");
             (of_ascii "level", levelname r);
             (of_ascii "name", name r);
             (of_ascii "message", msg)] in
          let payload :=
            match exc_info r with
            | Some text => payload ++ [(of_ascii "exc_info", text)]
            | None => payload
            end in
          inr (dumps payload)
      end
  end.

(** A code point is a surrogate. *)
Definition surrogate (c : N) : Prop := 55296 ≤ c ≤ 57343.

(** The strings of well-formed text: code points up to 0x10FFFF, none of
    them a surrogate. *)
Definition well_formed (s : list N) : Prop :=
  Forall (λ c, c ≤ 1114111 ∧ ¬ surrogate c) s.

Definition printable (c : N) : Prop := 32 ≤ c ≤ 126.

(** A record all of whose texts are well formed. *)
Definition well_formed_record (r : LogRecord) : Prop :=
  (∀ iso, created_iso r = inr iso → well_formed iso)
  ∧ well_formed (levelname r)
  ∧ well_formed (name r)
  ∧ (∀ msg, getMessage r = inr msg → well_formed msg)
  ∧ (∀ text, exc_info r = Some text → well_formed text).

End JsonLog.

Module Latency.

(** ** latency_trend_analysis.py *)

(** [values[start:]] *)
Definition slice_from {A : Type} (start : Z) (values : list A) : list A :=
  if start <? 0
  then drop (Z.to_nat (Z.max (Z.of_nat (length values) + start) 0)) values
  else drop (Z.to_nat start) values.

Section Sma.
Context {F : Type} `{FloatOps F}.

(** [statistics.mean] of a list that is not empty. *)
Variable mean : list F → F.

(** [statistics.mean]: [StatisticsError], a [ValueError], on no data. *)
Definition statistics_mean (values : list F) : exn + F :=
  match values with
  | [] => inl (ValueError "mean requires at least one data point")
  | _ => inr (mean values)
  end.

(** [sma], lines 13-16. *)
Definition sma (values : list F) (n : Z) : exn + F :=
  if Z.of_nat (length values) <? n then statistics_mean values
  else if n =? 0 then inl ZeroDivisionError
  else inr (fdiv_int (LoadTest.py_sum (slice_from (- n) values)) n).

End Sma.

End Latency.

Module Rbac.

(** ** rbac.py *)

(** What an RBAC function can raise: the [HTTPException]s of the module, the
    [AttributeError] of [.get] or [.state] on an object without it, and
    what the database driver raises. *)
Inductive failure : Type :=
  | HTTPException (status_code : Z) (detail : string)
  | AttributeError
  | DbError (e : exn).

Section Rbac.

(** User identifiers, with Python's truth value of one ([0] and [''] are
    false). *)
Context {U : Type} `{EqDecision U}.
Variable truthy : U → bool.

(** The four tables the queries read. *)
Record Tables : Type := {
  roles : list (Z * string);            (* id, name *)
  user_roles : list (U * Z);            (* user_id, role_id *)
  permissions : list (Z * string);      (* id, name *)
  role_permissions : list (Z * Z)       (* role_id, permission_id *)
}.

(** The connections that are out: acquired from the shared pool and not
    released, and opened one-off and not closed. *)
Record Conns : Type := { pool_out : nat; opened : nat }.

(** What the surroundings decide for one call: whether [app.db] can be
    imported and has a pool, and which of the driver's operations raise. *)
Record Env : Type := {
  has_pool : bool;
  acquire_exn : option exn;
  connect_exn : option exn;
  query_exn : option exn;
  release_exn : option exn;
  close_exn : option exn
}.

Inductive handle : Type := FromPool | OneOff.

(** [_get_conn], lines 11-28: the connection obtained and the pool to give
    it back to.  An [Exception] raised while importing the pool or
    acquiring from it is swallowed and the function falls back to a one-off
    connection. *)
Definition _get_conn (env : Env) (c : Conns) : Conns * (exn + handle) :=
  let fallback :=
    match connect_exn env with
    | Some e => (c, inl e)
    | None => ({| pool_out := pool_out c; opened := S (opened c) |}, inr OneOff)
    end in
  if has_pool env then
    match acquire_exn env with
    | None => ({| pool_out := S (pool_out c); opened := opened c |}, inr FromPool)
    | Some e => if is_Exception e then fallback else (c, inl e)
    end
  else fallback.

(** [_release_conn], lines 30-34. *)
Definition _release_conn (env : Env) (h : handle) (c : Conns)
    : Conns * (exn + unit) :=
  match h with
  | FromPool =>
      match release_exn env with
      | Some e => (c, inl e)
      | None => ({| pool_out := pred (pool_out c); opened := opened c |}, inr ())
      end
  | OneOff =>
      match close_exn env with
      | Some e => (c, inl e)
      | None => ({| pool_out := pool_out c; opened := pred (opened c) |}, inr ())
      end
  end.

(** [conn, pool = await _get_conn(); try: body finally: await
    _release_conn(conn, pool)]: an exception of the release replaces the
    outcome of the body. *)
Definition with_conn {A : Type} (env : Env) (body : exn + A) (c : Conns)
    : Conns * (exn + A) :=
  match _get_conn env c with
  | (c1, inl e) => (c1, inl e)
  | (c1, inr h) =>
      match _release_conn env h c1 with
      | (c2, inl e) => (c2, inl e)
      | (c2, inr _) => (c2, body)
      end
  end.

(** The rows of the query of [get_roles_for_user]: the names of the roles
    joined to a [user_roles] row of the user. *)
Definition role_rows (t : Tables) (u : U) : list string :=
  r ← roles t;
  ur ← user_roles t;
  if bool_decide (ur.2 = r.1 ∧ ur.1 = u) then [r.2] else [].

(** The rows of the query of [user_has_permission], before [LIMIT 1]. *)
Definition permission_rows (t : Tables) (u : U) (permission_name : string)
    : list Z :=
  p ← permissions t;
  rp ← role_permissions t;
  ur ← user_roles t;
  if bool_decide (rp.2 = p.1 ∧ ur.2 = rp.1 ∧ ur.1 = u ∧ p.2 = permission_name)
  then [1] else [].

(** [conn.fetch] and [conn.fetchrow]: the rows, or what the driver raises. *)
Definition run_query {A : Type} (env : Env) (rows : A) : exn + A :=
  match query_exn env with
  | Some e => inl e
  | None => inr rows
  end.

(** [get_roles_for_user], lines 37-46. *)
Definition get_roles_for_user (env : Env) (t : Tables) (u : U)
    : Conns → Conns * (exn + list string) :=
  with_conn env (run_query env (role_rows t u)).

(** [user_has_role], lines 48-50. *)
Definition user_has_role (env : Env) (t : Tables) (u : U) (role_name : string)
    (c : Conns) : Conns * (exn + bool) :=
  match get_roles_for_user env t u c with
  | (c', inl e) => (c', inl e)
  | (c', inr names) => (c', inr (bool_decide (role_name ∈ names)))
  end.

(** [user_has_permission], lines 52-67: [bool(row)] of the first row, if
    any. *)
Definition user_has_permission (env : Env) (t : Tables) (u : U)
    (permission_name : string) : Conns → Conns * (exn + bool) :=
  with_conn env
    (run_query env
       (match head (permission_rows t u permission_name) with
        | Some _ => true
        | None => false
        end)).

(** The current user that an endpoint sees: an object with or without an
    [id] attribute (and no [get] method), or a dict. *)
Inductive user : Type :=
  | UserObj (id : option U)
  | UserDict (d : gmap string U).

(** [getattr(current_user, "id", None)] *)
Definition getattr_id (cu : user) : option U :=
  match cu with
  | UserObj id => id
  | UserDict _ => None
  end.

(** Truth value of an identifier that may be [None]. *)
Definition truthy_opt (v : option U) : bool :=
  match v with
  | Some u => truthy u
  | None => false
  end.

(** [a or b] *)
Definition py_or (a b : option U) : option U :=
  if truthy_opt a then a else b.

(** Truth value of the current user: an empty dict is false. *)
Definition user_truthy (cu : user) : bool :=
  match cu with
  | UserObj _ => true
  | UserDict d => negb (bool_decide (d = ∅))
  end.

(** What a guarded endpoint does: it is refused, or its body runs. *)
Inductive outcome (A : Type) : Type :=
  | Refused (f : failure)
  | Ran (result : A).
Arguments Refused {A} f.
Arguments Ran {A} result.

(** The check shared by the two guards once the identifier is known. *)
Definition check_permission {A : Type} (env : Env) (t : Tables)
    (permission_name : string) (invalid : string) (user_id : option U)
    (body : A) (c : Conns) : Conns * outcome A :=
  match user_id with
  | None => (c, Refused (HTTPException 401 invalid))
  | Some u =>
      if truthy u then
        match user_has_permission env t u permission_name c with
        | (c', inl e) => (c', Refused (DbError e))
        | (c', inr false) =>
            (c', Refused (HTTPException 403 "Permission denied"))
        | (c', inr true) => (c', Ran body)
        end
      else (c, Refused (HTTPException 401 invalid))
  end.

(** The dependency that [inject_get_current_user] builds, lines 90-99; it
    returns [True] when it does not raise. *)
Definition _dep (env : Env) (t : Tables) (permission_name : string)
    (current_user : option user) (c : Conns) : Conns * outcome bool :=
  match current_user with
  | None => (c, Refused (HTTPException 401 "Not authenticated"))
  | Some cu =>
      if truthy_opt (getattr_id cu) then
        check_permission env t permission_name "Invalid user object"
          (getattr_id cu) true c
      else
        match cu with
        | UserObj _ => (c, Refused AttributeError)
        | UserDict d =>
            check_permission env t permission_name "Invalid user object"
              (d !! "id") true c
        end
  end.


(** A positional argument of the endpoint: a [Request] with what
    [req.state.current_user] holds, or something else. *)
Inductive arg : Type :=
  | ArgRequest (current_user : option user)
  | ArgOther.

(** The first [Request] among the positional arguments. *)
Fixpoint first_request (args : list arg) : option (option user) :=
  match args with
  | [] => None
  | ArgRequest cu :: _ => Some cu
  | ArgOther :: args' => first_request args'
  end.

(** What [kwargs.get("request")] gives; the keyword is not type-checked.
    It is a false value ([None] when the keyword is absent), or a true
    object with a [state] attribute (a [Request], with what
    [req.state.current_user] holds), or a true object without one. *)
Inductive kwarg : Type :=
  | KwFalse
  | KwRequest (current_user : option user)
  | KwOther.

(** The function that [requires_permission] puts in place of the
    endpoint, lines 118-138.  [kw_request] is [kwargs.get("request")]; on
    an object without [state], [req.state] raises [AttributeError]. *)
Definition wrapped {A : Type} (env : Env) (t : Tables)
    (permission_name : string) (args : list arg)
    (kw_request : kwarg) (fn : A) (c : Conns)
    : Conns * outcome A :=
  let req :=
    match first_request args with
    | Some r => KwRequest r
    | None => kw_request
    end in
  match req with
  | KwFalse => (c, Refused (HTTPException 500 "No Request found for RBAC check"))
  | KwOther => (c, Refused AttributeError)
  | KwRequest None => (c, Refused (HTTPException 401 "Not authenticated"))
  | KwRequest (Some cu) =>
      if user_truthy cu then
        check_permission env t permission_name "Invalid user"
          (py_or (getattr_id cu)
             (match cu with
              | UserDict d => d !! "id"
              | UserObj _ => None
              end))
          fn c
      else (c, Refused (HTTPException 401 "Not authenticated"))
  end.

(** ** Notions for the statements *)

(** The user holds the permission through one of their roles. *)
Definition granted (t : Tables) (u : U) (permission_name : string) : Prop :=
  ∃ role_id permission_id,
    (u, role_id) ∈ user_roles t
    ∧ (role_id, permission_id) ∈ role_permissions t
    ∧ (permission_id, permission_name) ∈ permissions t.

(** No operation of the driver raises. *)
Definition quiet (env : Env) : Prop :=
  acquire_exn env = None ∧ connect_exn env = None ∧ query_exn env = None
  ∧ release_exn env = None ∧ close_exn env = None.

(** The identifier that a guard checks: the [id] attribute when it is
    true, otherwise the ["id"] entry of a dict. *)
Definition checked_id (cu : user) (u : U) : Prop :=
  truthy u = true
  ∧ (getattr_id cu = Some u
     ∨ ∃ d, cu = UserDict d ∧ truthy_opt (getattr_id cu) = false
            ∧ d !! "id" = Some u).

End Rbac.

Arguments Refused {A} f.
Arguments Ran {A} result.

End Rbac.

(** * Properties of the load-test harness *)

Local Open Scope list_scope.

Section QueueFacts.
Import LoadTest.

Lemma length_range total : length (range total) = Z.to_nat total.
Proof. unfold range. by rewrite length_fmap, length_seq. Qed.

Lemma length_payloads total : length (payloads total) = Z.to_nat total.
Proof. unfold payloads. by rewrite length_fmap, length_range. Qed.

Lemma full_unbounded q : maxsize q ≤ 0 → full q = false.
Proof.
  intros Hm. unfold full.
  destruct (Z.leb_spec (maxsize q) 0) as [_|Hlt]; [done | lia].
Qed.

(** On a queue without a bound the fill loop never raises: it appends the
    items in order and counts each of them as unfinished. *)
Lemma put_all_unbounded xs q :
  maxsize q ≤ 0 →
  put_all xs q =
    inr {| maxsize := maxsize q;
           items := items q ++ (Some <$> xs);
           unfinished_tasks := unfinished_tasks q + Z.of_nat (length xs) |}.
Proof.
  revert q. induction xs as [|x xs IH]; intros q Hm; simpl.
  - destruct q as [m its u]; simpl. f_equal. f_equal; [by rewrite app_nil_r | lia].
  - unfold put_nowait. rewrite (full_unbounded q Hm).
    rewrite IH by done. simpl. f_equal. f_equal.
    + by rewrite <- app_assoc.
    + lia.
Qed.

Lemma fill_eq total :
  fill total =
    inr {| maxsize := 0;
           items := Some <$> payloads total;
           unfinished_tasks := Z.of_nat (Z.to_nat total) |}.
Proof.
  unfold fill. rewrite put_all_unbounded by (simpl; lia).
  simpl. by rewrite length_payloads.
Qed.

End QueueFacts.

Section HarnessFacts.
Import LoadTest.
Context {F : Type} `{FloatOps F}.
Implicit Types (s : @State F) (ws : list (@Task F)) (e : @event F) (t : @Task F).

Lemma held_replicate n : held (replicate n (WGet (F:=F))) = [].
Proof. induction n as [|n IH]; [done | exact IH]. Qed.

(** Replacing the task at [w] exchanges what it holds and nothing else. *)
Lemma held_insert ws w t :
  ws !! w = Some t →
  ∃ R, held ws ≡ₚ holds t ++ R ∧ ∀ t', held (<[w := t']> ws) ≡ₚ holds t' ++ R.
Proof.
  intros Hw. exists (held (take w ws) ++ held (drop (S w) ws)).
  assert (w < length ws)%nat as Hlt by (by eapply lookup_lt_Some).
  split.
  - rewrite <- (take_drop_middle ws w t Hw) at 1.
    unfold held. rewrite bind_app, bind_cons.
    by rewrite (assoc (++)), (comm (++) _ (holds t)), <- (assoc (++)).
  - intros t'. rewrite insert_take_drop by done.
    unfold held. rewrite bind_app, bind_cons.
    by rewrite (assoc (++)), (comm (++) _ (holds t')), <- (assoc (++)).
Qed.

Lemma held_nil_get ws :
  held ws = [] → Forall (λ t, t ≠ WCancelled) ws → Forall (λ t, t = WGet) ws.
Proof.
  induction ws as [|t ws IH]; intros Hh Hl; [constructor|].
  unfold held in Hh. rewrite bind_cons in Hh.
  apply app_eq_nil in Hh as [Ht Hws].
  inversion Hl as [|?? Ht' Hl']; subst.
  constructor; [| by apply IH].
  by destruct t.
Qed.

Lemma Inv_start all n :
  Inv (F:=F) all
    {| q := {| maxsize := 0; items := all;
               unfinished_tasks := Z.of_nat (length all) |};
       workers := replicate n WGet; results := []; handled := [] |}.
Proof.
  split; simpl.
  - by rewrite held_replicate.
  - by rewrite held_replicate.
  - done.
  - by apply Forall_replicate.
Qed.

(** Every step of a worker keeps the invariant. *)
Lemma step_Inv all e s s' : Inv all s → step e s = Some s' → Inv all s'.
Proof.
  intros [Hp Hc Hl Hv] Hs. destruct e as [w t0|w st|w t1|w ex]; simpl in Hs.
  - destruct (workers s !! w) as [[]|] eqn:Hw; try done.
    destruct (items (q s)) as [|x rest] eqn:Hi; [done|].
    destruct (held_insert _ _ _ Hw) as (R & HR & HR').
    assert (∀ t', holds t' = [x] → t' ≠ WCancelled →
              Inv all (set_worker w t' (pop_queue s))) as Hgo.
    { intros t' Ht' Hne. split; simpl; rewrite ?Hi; simpl.
      - rewrite Hp, HR, HR', Ht'. simpl.
        apply Permutation_app_head. by rewrite Permutation_middle.
      - rewrite Hc, HR, HR', Ht'. simpl. rewrite !length_app. simpl. lia.
      - done.
      - by apply Forall_insert. }
    destruct x as [item|]; inversion Hs; subst; by apply Hgo.
  - destruct (workers s !! w) as [[]|] eqn:Hw; try done.
    inversion Hs; subst; clear Hs.
    destruct (held_insert _ _ _ Hw) as (R & HR & HR').
    split; simpl.
    + by rewrite Hp, HR, HR'.
    + by rewrite Hc, HR, HR'.
    + done.
    + by apply Forall_insert.
  - destruct (workers s !! w) as [[]|] eqn:Hw; try done.
    destruct (held_insert _ _ _ Hw) as (R & HR & HR').
    unfold task_done in Hs. simpl in Hs.
    destruct (Z.leb_spec (unfinished_tasks (q s)) 0) as [Hle|Hgt].
    { exfalso. rewrite Hc, HR in Hle. simpl in Hle. lia. }
    inversion Hs; subst; clear Hs. split; simpl.
    + rewrite Hp, HR, HR'. simpl. rewrite fmap_app. simpl.
      rewrite <- (assoc (++)). by apply Permutation_app_head.
    + rewrite Hc, HR, HR'. simpl. rewrite !length_app. lia.
    + rewrite !length_app. simpl. lia.
    + by apply Forall_insert.
  - assert (∃ item t, workers s !! w = Some t ∧ holds t = [Some item]
              ∧ s' = set_worker w (WRaised item ex) s) as (item & t & Hw & Ht & ->).
    { destruct (workers s !! w) as [[]|] eqn:Hw; try done;
        inversion Hs; subst; eauto 6. }
    destruct (held_insert _ _ _ Hw) as (R & HR & HR').
    split; simpl.
    + by rewrite Hp, HR, HR', Ht.
    + by rewrite Hc, HR, HR', Ht.
    + done.
    + by apply Forall_insert.
Qed.

Lemma exec_Inv all evs s s' : Inv all s → exec evs s = Some s' → Inv all s'.
Proof.
  revert s. induction evs as [|e evs IH]; intros s Hi He; simpl in He.
  - by inversion He; subst.
  - destruct (step e s) as [s1|] eqn:Hs; [|done].
    eapply IH; [|done]. by eapply step_Inv.
Qed.

Lemma exec_app evs1 evs2 s :
  exec (evs1 ++ evs2) s = exec evs1 s ≫= exec evs2.
Proof.
  revert s. induction evs1 as [|e evs1 IH]; intros s; simpl; [done|].
  destruct (step e s); [apply IH | done].
Qed.

Lemma step_length_workers e s s' :
  step e s = Some s' → length (workers s') = length (workers s).
Proof.
  intros Hs. destruct e; simpl in Hs;
    repeat (match type of Hs with
            | context [match ?x with _ => _ end] => destruct x eqn:?
            end; try done);
    inversion Hs; subst; simpl; by rewrite length_insert.
Qed.

Lemma exec_length_workers evs s s' :
  exec evs s = Some s' → length (workers s') = length (workers s).
Proof.
  revert s. induction evs as [|e evs IH]; intros s He; simpl in He.
  - by inversion He.
  - destruct (step e s) as [s1|] eqn:Hs; [|done].
    rewrite (IH _ He). by eapply step_length_workers.
Qed.

Lemma main_start_eq conc total :
  main_start (F:=F) conc total =
    inr {| q := {| maxsize := 0;
                   items := Some <$> payloads total;
                   unfinished_tasks := Z.of_nat (Z.to_nat total) |};
           workers := replicate (Z.to_nat conc) WGet;
           results := []; handled := [] |}.
Proof. unfold main_start. by rewrite fill_eq. Qed.

Lemma Inv_main_start conc total s0 :
  main_start conc total = inr s0 → Inv (Some <$> payloads total) s0.
Proof.
  rewrite main_start_eq. intros [= <-].
  pose proof (Inv_start (Some <$> payloads total) (Z.to_nat conc)) as Hi.
  by rewrite length_fmap, length_payloads in Hi.
Qed.

Lemma Some_Permutation_inv {A} (l1 l2 : list A) :
  Some <$> l1 ≡ₚ Some <$> l2 → l1 ≡ₚ l2.
Proof.
  intros Hp. change (Some <$> l2) with (map Some l2) in Hp.
  apply Permutation_map_inv in Hp as (l3 & Heq & Hp).
  change (map Some l3) with (Some <$> l3) in Heq.
  apply (inj (fmap Some)) in Heq as ->. by symmetry.
Qed.

(** When [join] returns, the queue is empty, no worker holds an item and
    every worker is suspended in [q.get()]. *)
Lemma join_facts all s :
  Inv all s → join_ready (q s) = true →
  items (q s) = [] ∧ held (workers s) = []
  ∧ all ≡ₚ Some <$> handled s ∧ Forall (λ t, t = WGet) (workers s).
Proof.
  intros [Hp Hc Hl Hv] Hj. unfold join_ready in Hj.
  apply Z.leb_le in Hj. rewrite Hc in Hj.
  assert (held (workers s) ++ items (q s) = []) as Hnil.
  { apply length_zero_iff_nil. lia. }
  apply app_eq_nil in Hnil as [Hh Hq].
  split_and!; [done | done | | by apply held_nil_get].
  by rewrite Hp, Hh, Hq, !app_nil_r.
Qed.

Lemma payload_inj : Inj (=) (=) payload.
Proof. intros i j Hij. by injection Hij. Qed.

Lemma NoDup_payloads total : NoDup (payloads total).
Proof.
  unfold payloads, range.
  pose proof payload_inj.
  assert (Inj (=) (=) Z.of_nat) by (intros ??; apply Nat2Z.inj).
  apply (NoDup_fmap_2 _), (NoDup_fmap_2 _), NoDup_seq.
Qed.

Lemma payloads_lookup total i :
  (i < Z.to_nat total)%nat → payloads total !! i = Some (payload (Z.of_nat i)).
Proof.
  intros Hi. unfold payloads, range.
  by rewrite !list_lookup_fmap, lookup_seq_lt.
Qed.

(** What every finished run of [main] has established. *)
Lemma main_run_facts conc total evs s out :
  main_run conc total evs s out →
  length (results s) = Z.to_nat total
  ∧ handled s ≡ₚ payloads total
  ∧ length (handled s) = length (results s)
  ∧ items (q s) = []
  ∧ workers s = replicate (Z.to_nat conc) WCancelled
  ∧ out = summary (results s).
Proof.
  intros (s0 & Hs0 & s1 & He & Hj & Hf).
  pose proof (Inv_main_start _ _ _ Hs0) as Hi0.
  pose proof (exec_Inv _ _ _ _ Hi0 He) as Hi1.
  destruct (join_facts _ _ Hi1 Hj) as (Hq & Hh & Hp & Hw).
  apply Some_Permutation_inv in Hp.
  pose proof (exec_length_workers _ _ _ He) as Hlen.
  rewrite main_start_eq in Hs0. injection Hs0 as <-. simpl in Hlen.
  rewrite length_replicate in Hlen.
  unfold main_finish in Hf. injection Hf as <- <-. simpl.
  split_and!; try done.
  - by rewrite (inv_len _ _ Hi1), <- Hp, length_payloads.
  - by rewrite (inv_len _ _ Hi1).
  - rewrite <- Hlen. clear -Hw.
    induction Hw as [|t ws -> _ IH]; simpl; [done | by f_equal].
Qed.


(** One full turn of the loop of worker [w]: it takes the head of the
    queue, gets a response, and is back at the top with one more result. *)
Lemma serve_one w c st s item rest :
  workers s !! w = Some WGet →
  items (q s) = Some item :: rest →
  0 < unfinished_tasks (q s) →
  exec [EvGet w c; EvResp w st; EvBody w c] s =
    Some {| q := {| maxsize := maxsize (q s); items := rest;
                    unfinished_tasks := unfinished_tasks (q s) - 1 |};
            workers := workers s;
            results := results s ++ [(st, fsub c c)];
            handled := handled s ++ [item] |}.
Proof.
  intros Hw Hi Hu.
  assert (w < length (workers s))%nat as Hlt by (by eapply lookup_lt_Some).
  simpl. rewrite Hw, Hi. simpl.
  rewrite list_lookup_insert_eq by done. simpl.
  rewrite list_lookup_insert_eq by (by rewrite length_insert).
  unfold task_done. simpl.
  destruct (Z.leb_spec (unfinished_tasks (q s)) 0) as [?|_]; [lia|].
  unfold set_worker, set_queue, record. simpl.
  by rewrite Hi, !list_insert_insert_eq, (list_insert_id _ _ _ Hw).
Qed.

Lemma serial_exec w c sts : ∀ s its rest,
  workers s !! w = Some WGet →
  items (q s) = (Some <$> its) ++ rest →
  length its = length sts →
  Z.of_nat (length its) ≤ unfinished_tasks (q s) →
  exec (serial w c sts) s =
    Some {| q := {| maxsize := maxsize (q s); items := rest;
                    unfinished_tasks :=
                      unfinished_tasks (q s) - Z.of_nat (length its) |};
            workers := workers s;
            results := results s ++ ((λ st, (st, fsub c c)) <$> sts);
            handled := handled s ++ its |}.
Proof.
  induction sts as [|st sts IH]; intros s its rest Hw Hi Hlen Hu.
  - destruct its; [|done]. simpl in *. subst rest.
    rewrite !app_nil_r, Z.sub_0_r. by destruct s as [[]].
  - destruct its as [|item its]; [done|]. simpl in Hi, Hlen, Hu.
    unfold serial. rewrite bind_cons. fold (serial w c sts).
    rewrite exec_app, (serve_one w c st s item _ Hw Hi) by lia.
    simpl. rewrite (IH _ its rest) by (simpl; try done; lia).
    simpl. f_equal. f_equal.
    + f_equal. lia.
    + by rewrite <- app_assoc.
    + by rewrite <- app_assoc.
Qed.

(** With at least one worker and an endpoint that answers every request,
    [main] finishes: worker 0 alone can serve the whole queue. *)
Lemma main_run_serial conc total c sts :
  1 ≤ conc → length sts = Z.to_nat total →
  ∃ s out, main_run conc total (serial 0 c sts) s out
    ∧ (results s).*1 = sts ∧ handled s = payloads total.
Proof.
  intros Hc Hlen.
  pose proof (main_start_eq conc total) as Hs0.
  set (s0 := {| q := _ |}) in Hs0.
  assert (workers s0 !! 0%nat = Some WGet) as Hw.
  { simpl. apply lookup_replicate_2. lia. }
  pose proof (serial_exec 0 c sts s0 (payloads total) [] Hw) as He.
  simpl in He. rewrite app_nil_r, length_payloads in He.
  specialize (He eq_refl (eq_sym Hlen) (Z.le_refl _)).
  eexists _, _. split.
  - exists s0. split; [done|]. eexists. split; [exact He|]. split; [|done].
    unfold join_ready. simpl. apply Z.leb_le. lia.
  - simpl. split; [|done].
    rewrite <- list_fmap_compose. simpl.
    clear. induction sts as [|st sts IH]; simpl; [done | by f_equal].
Qed.

(** ** Runs against a deterministic stub *)

Lemma step_Conforms stub e s s' :
  Conforms stub s → answers stub e s = true → step e s = Some s' →
  Conforms stub s'.
Proof.
  intros [Hr Ht] Ha Hs. destruct e as [w c0|w st|w c1|w ex]; simpl in Hs, Ha.
  - destruct (workers s !! w) as [[]|] eqn:Hw; try done.
    destruct (items (q s)) as [|[item|] rest] eqn:Hi; try done;
      inversion Hs; subst; clear Hs; (split; simpl; [done|]);
      intros w' item' c0' st' [(_ & [=] & _)|[_ Hw']]%list_lookup_insert_Some;
      eauto.
  - destruct (workers s !! w) as [[|item c0|? ? ?| |? ?|]|] eqn:Hw; try done.
    apply bool_decide_eq_true in Ha.
    inversion Hs; subst; clear Hs. split; simpl; [done|].
    intros w' item' c0' st' [(_ & [= <- <- <-] & _)|[_ Hw']]%list_lookup_insert_Some;
      eauto.
  - destruct (workers s !! w) as [[|? ?|item c0 st| |? ?|]|] eqn:Hw; try done.
    assert (inr <$> (results s ++ [(st, fsub c1 c0)]).*1
            = stub <$> (handled s ++ [item])) as Hr'.
    { rewrite !fmap_app, Hr. simpl. by rewrite (Ht _ _ _ _ Hw). }
    destruct (task_done _) as [ex|q'] eqn:Htd; inversion Hs; subst; clear Hs;
      (split; simpl; [done|]);
      intros w' item' c0' st' [(_ & [=] & _)|[_ Hw']]%list_lookup_insert_Some;
      eauto.
  - assert (∃ item, s' = set_worker w (WRaised item ex) s) as [item ->].
    { destruct (workers s !! w) as [[]|]; try done; inversion Hs; eauto. }
    split; simpl; [done|].
    intros w' item' c0' st' [(_ & [=] & _)|[_ Hw']]%list_lookup_insert_Some;
      eauto.
Qed.

Lemma stub_run_Conforms stub evs s s' :
  Conforms stub s → stub_run stub evs s = true → exec evs s = Some s' →
  Conforms stub s'.
Proof.
  revert s. induction evs as [|e evs IH]; intros s Hc Hr He; simpl in *.
  - by inversion He; subst.
  - apply andb_true_iff in Hr as [Ha Hr]. destruct (step e s) as [s1|] eqn:Hs; [|done].
    eapply IH; [|done..]. by eapply step_Conforms.
Qed.

Lemma stub_run_app stub evs1 evs2 s :
  stub_run stub evs1 s = true →
  (∀ s', exec evs1 s = Some s' → stub_run stub evs2 s' = true) →
  stub_run stub (evs1 ++ evs2) s = true.
Proof.
  revert s. induction evs1 as [|e evs1 IH]; intros s H1 H2; simpl in *.
  - by apply H2.
  - apply andb_true_iff in H1 as [Ha H1]. rewrite Ha. simpl.
    destruct (step e s) as [s1|]; [by apply IH | done].
Qed.

Lemma stub_run_serve_one stub w c st s item rest :
  workers s !! w = Some WGet →
  items (q s) = Some item :: rest →
  stub item = inr st →
  stub_run stub [EvGet w c; EvResp w st; EvBody w c] s = true.
Proof.
  intros Hw Hi Hst.
  assert (w < length (workers s))%nat as Hlt by (by eapply lookup_lt_Some).
  simpl. rewrite Hw, Hi. simpl.
  rewrite list_lookup_insert_eq by done. simpl.
  rewrite (bool_decide_eq_true_2 _ Hst). simpl.
  rewrite list_lookup_insert_eq by (by rewrite length_insert).
  by destruct (task_done _).
Qed.

(** The serial schedule that answers as the stub does is a run against
    the stub. *)
Lemma stub_run_serial stub w c its : ∀ s rest sts,
  workers s !! w = Some WGet →
  items (q s) = (Some <$> its) ++ rest →
  inr <$> sts = stub <$> its →
  Z.of_nat (length its) ≤ unfinished_tasks (q s) →
  stub_run stub (serial w c sts) s = true.
Proof.
  induction its as [|item its IH]; intros s rest sts Hw Hi Hst Hu.
  - by destruct sts.
  - destruct sts as [|st sts]; [done|]. simpl in Hi, Hst, Hu.
    injection Hst as Hst1 Hst.
    unfold serial. rewrite bind_cons. fold (serial w c sts).
    apply stub_run_app; [by eapply stub_run_serve_one|].
    intros s'. rewrite (serve_one w c st s item _ Hw Hi) by lia.
    intros [= <-]. eapply IH; simpl; try done. lia.
Qed.

(** ** The summary *)

Lemma ok_count_occ (rs : list (Z * F)) :
  length (filter (λ r, r.1 = 200) rs) = count_occ Z.eq_dec rs.*1 200.
Proof.
  induction rs as [|[st l] rs IH]; [done|]. simpl.
  rewrite filter_cons. simpl.
  destruct (decide (st = 200)) as [->|Hne]; destruct (Z.eq_dec _ _);
    simpl; try done; by rewrite IH.
Qed.

Lemma ok_count_stub (rs : list (Z * F)) :
  length (filter (λ r, r.1 = 200) rs) =
  length (filter (λ x : exn + Z, x = inr 200) (inr <$> rs.*1)).
Proof.
  induction rs as [|[st l] rs IH]; [done|]. simpl.
  rewrite !filter_cons. simpl.
  destruct (decide (st = 200)) as [->|Hne];
    destruct (decide (_ = _)) as [Heq|Hne']; simpl;
    try done; try congruence.
  by rewrite IH.
Qed.

Lemma summary_nonempty (rs : list (Z * F)) :
  rs ≠ [] →
  summary rs =
    inr {| requests := length rs;
           ok := length (filter (λ r, r.1 = 200) rs);
           avg_latency :=
             fdiv_int (py_sum (snd <$> rs)) (Z.of_nat (length rs)) |}.
Proof. by destruct rs. Qed.

Lemma py_sum_snoc (xs : list F) x : py_sum (xs ++ [x]) = fadd (py_sum xs) x.
Proof. unfold py_sum. by rewrite fold_left_app. Qed.

(** ** Tasks that are over, and the empty queue *)

(** A worker whose exchange has raised stays as it is: no event resumes it. *)
Lemma step_raised e s s' w item ex :
  step e s = Some s' →
  workers s !! w = Some (WRaised item ex) →
  workers s' !! w = Some (WRaised item ex).
Proof.
  intros Hs Hw.
  assert (∃ w' t', workers s' = <[w' := t']> (workers s)
            ∧ ∀ i x, workers s !! w' ≠ Some (WRaised i x))
    as (w' & t' & -> & Hne).
  { destruct e as [w' ?|w' ?|w' ?|w' ?]; simpl in Hs;
      destruct (workers s !! w') as [[]|] eqn:Hw'; try done;
      repeat (match type of Hs with
              | context [match ?x with _ => _ end] => destruct x eqn:?
              end; try done);
      inversion Hs; subst; clear Hs; simpl;
      eexists w', _; (split; [reflexivity|]); congruence. }
  rewrite list_lookup_insert_ne; [done|].
  intros ->. by eapply Hne.
Qed.

Lemma exec_raised evs s s' w item ex :
  exec evs s = Some s' →
  workers s !! w = Some (WRaised item ex) →
  workers s' !! w = Some (WRaised item ex).
Proof.
  revert s. induction evs as [|e evs IH]; intros s He Hw; simpl in He.
  - by inversion He; subst.
  - destruct (step e s) as [s1|] eqn:Hs; [|done].
    eapply IH; [done|]. by eapply step_raised.
Qed.

Lemma held_elem ws t x : t ∈ ws → x ∈ holds t → x ∈ held ws.
Proof. intros Ht Hx. unfold held. apply list_elem_of_bind. eauto. Qed.

(** The item of a dead worker is never marked done, so [join] never
    returns once an exchange has raised. *)
Lemma raised_blocks_join all s w item ex :
  Inv all s → workers s !! w = Some (WRaised item ex) →
  join_ready (q s) = false.
Proof.
  intros Hi Hw. unfold join_ready. apply Z.leb_gt.
  rewrite (inv_count _ _ Hi), length_app.
  assert (Some item ∈ held (workers s)) as Hin.
  { eapply held_elem; [by eapply list_elem_of_lookup_2 | simpl; set_solver]. }
  destruct (held (workers s)); [by apply elem_of_nil in Hin | simpl; lia].
Qed.

(** [main] enqueues no [None], so no worker ever leaves its loop through
    the [break]. *)
Lemma no_sentinel xs s : Inv (Some <$> xs) s → WReturned ∉ workers s.
Proof.
  intros Hi Hin.
  assert (None ∈ Some <$> xs) as Hn.
  { rewrite (inv_perm _ _ Hi). apply elem_of_app. right.
    apply elem_of_app. left. eapply held_elem; [done | simpl; set_solver]. }
  apply list_elem_of_fmap in Hn as (? & ? & ?). done.
Qed.

(** [q.get()] on the empty queue suspends the worker. *)
Lemma get_blocks s w c : items (q s) = [] → step (EvGet w c) s = None.
Proof. intros Hq. simpl. rewrite Hq. by destruct (workers s !! w) as [[]|]. Qed.

(** Once [join] can return, no worker can take a step. *)
Lemma drained_stuck all s e :
  Inv all s → join_ready (q s) = true → step e s = None.
Proof.
  intros Hi Hj. destruct (join_facts _ _ Hi Hj) as (Hq & _ & _ & Hw).
  rewrite Forall_lookup in Hw.
  destruct e as [w ?|w ?|w ?|w ?]; simpl; [by apply get_blocks|..];
    destruct (workers s !! w) as [t|] eqn:Ht; try done;
    by rewrite (Hw _ _ Ht).
Qed.

(** ** Progress: a run in which no exchange raises can always finish *)

Lemma sum_awaits_insert ws w t t' :
  ws !! w = Some t →
  (sum_list_with awaits (<[w := t']> ws) + awaits t
   = sum_list_with awaits ws + awaits t')%nat.
Proof.
  revert w. induction ws as [|x ws IH]; intros [|w] Hw; simpl in *; try done.
  - injection Hw as ->. lia.
  - specialize (IH _ Hw). lia.
Qed.

(** Either every worker is at [q.get()], or one is inside an exchange. *)
Lemma workers_cases ws :
  Forall not_raised ws → Forall (λ t, t ≠ WCancelled) ws → WReturned ∉ ws →
  Forall (λ t, t = WGet) ws
  ∨ ∃ w t, ws !! w = Some t ∧ (0 < awaits t)%nat.
Proof.
  induction ws as [|x ws IH]; intros Hr Hc Hn; [by left|].
  apply Forall_cons in Hr as [Hx Hr]. apply Forall_cons in Hc as [Hxc Hc].
  apply not_elem_of_cons in Hn as [Hxn Hn].
  destruct x; try done.
  - destruct (IH Hr Hc Hn) as [Hg|(w & t & Hw & Ht)].
    + left. by constructor.
    + right. by exists (S w), t.
  - right. exists 0%nat. eexists. split; [done | simpl; lia].
  - right. exists 0%nat. eexists. split; [done | simpl; lia].
Qed.

(** While [join] cannot return and no exchange has raised, some worker can
    take a step that leaves less to do. *)
Lemma progress (reply : WorkItem → Z) xs s :
  Inv (Some <$> xs) s →
  Forall not_raised (workers s) →
  workers s ≠ [] →
  join_ready (q s) = false →
  ∃ e s', step e s = Some s'
    ∧ (work_left s' < work_left s)%nat
    ∧ Forall not_raised (workers s').
Proof.
  intros Hi Hr Hne Hj.
  destruct (workers_cases _ Hr (inv_live _ _ Hi) (no_sentinel _ _ Hi))
    as [Hg|(w & t & Hw & Ht)].
  - assert (held (workers s) = []) as Hh.
    { clear -Hg. induction Hg as [|t ws -> _ IH]; [done | exact IH]. }
    unfold join_ready in Hj. apply Z.leb_gt in Hj.
    rewrite (inv_count _ _ Hi), Hh in Hj. simpl in Hj.
    destruct (items (q s)) as [|x rest] eqn:Hq; [simpl in Hj; lia|].
    assert (∃ item, x = Some item) as [item ->].
    { destruct x; [eauto|]. exfalso.
      assert (None ∈ Some <$> xs) as Hin.
      { rewrite (inv_perm _ _ Hi), Hq. set_solver. }
      apply list_elem_of_fmap in Hin as (? & ? & ?). done. }
    destruct (workers s) as [|t ws] eqn:Hws; [done|].
    apply Forall_cons in Hg as [-> Hg].
    exists (EvGet 0 fzero). eexists. simpl. rewrite Hws, Hq. simpl.
    split; [done|]. unfold work_left. simpl. rewrite Hws, Hq. simpl.
    split; [lia|]. apply Forall_cons in Hr as [_ Hr]. by constructor.
  - assert (w < length (workers s))%nat as Hlt by (by eapply lookup_lt_Some).
    destruct t as [|item c0|item c0 st| | |]; simpl in Ht; try lia.
    + exists (EvResp w (reply item)). eexists. simpl. rewrite Hw.
      split; [done|]. unfold work_left. simpl.
      pose proof (sum_awaits_insert _ _ _ (WText item c0 (reply item)) Hw).
      simpl in *. split; [lia|]. by apply Forall_insert.
    + exists (EvBody w c0).
      destruct (held_insert _ _ _ Hw) as (R & HR & _).
      assert (0 < unfinished_tasks (q s)) as Hu.
      { rewrite (inv_count _ _ Hi), HR. simpl. lia. }
      eexists. simpl. rewrite Hw. unfold task_done. simpl.
      destruct (Z.leb_spec (unfinished_tasks (q s)) 0) as [?|_]; [lia|].
      split; [done|]. unfold work_left. simpl.
      pose proof (sum_awaits_insert _ _ _ WGet Hw).
      simpl in *. split; [lia|]. by apply Forall_insert.
Qed.

(** Every state of a run in which no exchange has raised leads, by some
    schedule that answers each request as [reply] says, to a state in
    which [join] returns. *)
Lemma completion (reply : WorkItem → Z) xs n : ∀ s,
  (work_left s ≤ n)%nat →
  Inv (Some <$> xs) s →
  Forall not_raised (workers s) →
  workers s ≠ [] →
  ∃ evs s', exec evs s = Some s' ∧ join_ready (q s') = true.
Proof.
  induction n as [|n IH]; intros s Hn Hi Hr Hne;
    destruct (join_ready (q s)) eqn:Hj;
    try (by exists [], s).
  - destruct (progress reply _ _ Hi Hr Hne Hj) as (e & s' & _ & Hlt & _). lia.
  - destruct (progress reply _ _ Hi Hr Hne Hj) as (e & s' & Hs & Hlt & Hr').
    destruct (IH s') as (evs & s2 & He & Hj2).
    + lia.
    + by eapply step_Inv.
    + done.
    + apply step_length_workers in Hs. intros Hnil.
      rewrite Hnil in Hs. by destruct (workers s).
    + exists (e :: evs), s2. simpl. by rewrite Hs.
Qed.

End HarnessFacts.

(** * The specified properties of the load-test harness *)

Section HarnessClaims.
Import LoadTest.
Context {F : Type} `{FloatOps F}.

(** All runs with no request end in the division of line 37. *)
Lemma no_requests_no_summary conc total evs (s : @State F) out :
  total ≤ 0 → main_run conc total evs s out → out = inl ZeroDivisionError.
Proof.
  intros Ht Hr. destruct (main_run_facts _ _ _ _ _ Hr) as (Hl & _ & _ & _ & _ & ->).
  replace (Z.to_nat total) with 0%nat in Hl by lia.
  by destruct (results s).
Qed.

(** C1: for a concurrency between 1 and [total], every run of [main] that
    gets past [q.join()] has recorded exactly [total] outcomes, one for
    each enqueued item and none twice, and prints that number; for every
    sequence of [total] response statuses there is such a run; and every
    schedule during which no exchange has raised can be continued to the
    end of the run. *)
Theorem outcomes_equal_total conc total :
  1 ≤ conc ≤ total →
  (∀ evs (s : @State F) out, main_run conc total evs s out →
     length (results s) = Z.to_nat total
     ∧ length (handled s) = length (results s)
     ∧ handled s ≡ₚ payloads total
     ∧ NoDup (handled s)
     ∧ ∃ sm, out = inr sm ∧ requests sm = Z.to_nat total)
  ∧ (∀ sts, length sts = Z.to_nat total →
       ∃ evs (s : @State F) out,
         main_run conc total evs s out ∧ (results s).*1 = sts)
  ∧ (∀ evs (s0 s1 : @State F),
       main_start conc total = inr s0 → exec evs s0 = Some s1 →
       Forall not_raised (workers s1) →
       ∃ evs' s out, main_run conc total (evs ++ evs') s out).
Proof.
  intros [Hc Ht]. split; [|split].
  - intros evs s out Hr.
    destruct (main_run_facts _ _ _ _ _ Hr) as (Hl & Hp & Hlh & _ & _ & ->).
    split_and!; try done.
    + rewrite Hp. apply NoDup_payloads.
    + unfold summary. destruct (results s) as [|r rs] eqn:Hrs.
      * simpl in Hl. lia.
      * eexists. split; [done|]. simpl. by rewrite <- Hl.
  - intros sts Hlen.
    destruct (main_run_serial conc total fzero sts) as (s & out & Hr & Hs & _);
      [lia | done |]. eauto.
  - intros evs s0 s1 Hs0 He Hr.
    pose proof (exec_Inv _ _ _ _ (Inv_main_start _ _ _ Hs0) He) as Hi.
    destruct (completion (λ _, 200) (payloads total) (work_left s1) s1)
      as (evs' & s2 & He' & Hj); try done.
    { apply exec_length_workers in He. intros Hnil. rewrite Hnil in He.
      rewrite main_start_eq in Hs0. injection Hs0 as <-. simpl in He.
      rewrite length_replicate in He. simpl in He. lia. }
    exists evs', (main_finish s2).1, (main_finish s2).2, s0.
    split; [done|]. exists s2. rewrite exec_app, He. simpl.
    split; [done|]. split; [done|]. reflexivity.
Qed.

(** C2: with no request, [main] for any concurrency returns from
    [q.join()] at once, cancels its workers and raises
    [ZeroDivisionError] in place of a summary. *)
Theorem zero_requests_divide conc :
  main_run (F:=F) conc 0 []
    {| q := Queue_new 0; workers := replicate (Z.to_nat conc) WCancelled;
       results := []; handled := [] |}
    (inl ZeroDivisionError).
Proof.
  eexists. split; [apply main_start_eq|].
  eexists. split; [done|]. split; [done|].
  unfold main_finish. simpl. f_equal. f_equal.
  induction (Z.to_nat conc) as [|n IH]; simpl; [done | by f_equal].
Qed.

(** C3, as the code has it: from a state of a run in which worker [w] has
    posted [item] at clock reading [c0], a response with any status [st]
    whose body is read at [c1] appends the one outcome [(st, c1 - c0)],
    marks the task done and puts the worker back at [q.get()]; an
    exception raised by the exchange, before or after the response, ends
    that worker with nothing recorded and everything else as it was. *)
Theorem response_recorded conc total evs (s0 s : @State F) w item c0 :
  main_start conc total = inr s0 →
  exec evs s0 = Some s →
  workers s !! w = Some (WPost item c0) →
  (∀ st c1,
     exec [EvResp w st; EvBody w c1] s =
       Some {| q := {| maxsize := maxsize (q s); items := items (q s);
                       unfinished_tasks := unfinished_tasks (q s) - 1 |};
               workers := <[w := WGet]> (workers s);
               results := results s ++ [(st, fsub c1 c0)];
               handled := handled s ++ [item] |})
  ∧ (∀ ex,
       exec [EvExn w ex] s =
         Some {| q := q s; workers := <[w := WRaised item ex]> (workers s);
                 results := results s; handled := handled s |})
  ∧ (∀ st ex,
       exec [EvResp w st; EvExn w ex] s =
         Some {| q := q s; workers := <[w := WRaised item ex]> (workers s);
                 results := results s; handled := handled s |}).
Proof.
  intros Hs0 He Hw.
  assert (w < length (workers s))%nat as Hlt by (by eapply lookup_lt_Some).
  pose proof (exec_Inv _ _ _ _ (Inv_main_start _ _ _ Hs0) He) as Hi.
  assert (0 < unfinished_tasks (q s)) as Hu.
  { rewrite (inv_count _ _ Hi), length_app.
    assert (Some item ∈ held (workers s)) as Hin.
    { eapply held_elem; [by eapply list_elem_of_lookup_2 | simpl; set_solver]. }
    destruct (held (workers s)); [by apply elem_of_nil in Hin | simpl; lia]. }
  split_and!.
  - intros st c1. simpl. rewrite Hw. simpl.
    rewrite list_lookup_insert_eq by done. unfold task_done. simpl.
    destruct (Z.leb_spec (unfinished_tasks (q s)) 0) as [?|_]; [lia|].
    unfold set_worker, set_queue, record. simpl.
    by rewrite list_insert_insert_eq.
  - intros ex. simpl. by rewrite Hw.
  - intros st ex. simpl. rewrite Hw. simpl.
    rewrite list_lookup_insert_eq by done.
    unfold set_worker. simpl. by rewrite list_insert_insert_eq.
Qed.

(** C4, as the code has it: [main] enqueues no [None] and the queue has no
    [close()], so in every state of a run no worker has left its loop
    through the [None] test: each worker is at [q.get()], inside an
    exchange, or ended by an exception its exchange raised; and from the
    moment a worker has ended that way it stays so and [q.join()] never
    returns.  [q.get()] on the empty queue suspends the worker.  When
    [q.join()] returns the queue is empty, every enqueued item is behind a
    result, every worker is suspended in [q.get()], and [main] ends each of
    them with [cancel()]. *)
Theorem workers_end_by_cancel conc total evs (s0 s : @State F) :
  main_start conc total = inr s0 →
  exec evs s0 = Some s →
  (WReturned ∉ workers s)
  ∧ (items (q s) = [] → ∀ w c, step (EvGet w c) s = None)
  ∧ (join_ready (q s) = true →
       items (q s) = []
       ∧ handled s ≡ₚ payloads total
       ∧ Forall (λ t, t = WGet) (workers s)
       ∧ workers (main_finish s).1 = replicate (Z.to_nat conc) WCancelled)
  ∧ Forall (λ t, t = WGet
                 ∨ (∃ item c, t = WPost item c)
                 ∨ (∃ item c status, t = WText item c status)
                 ∨ (∃ item ex, t = WRaised item ex)) (workers s)
  ∧ (∀ w item ex, workers s !! w = Some (WRaised item ex) →
       ∀ evs' s', exec evs' s = Some s' →
         workers s' !! w = Some (WRaised item ex)
         ∧ join_ready (q s') = false).
Proof.
  intros Hs0 He.
  pose proof (exec_Inv _ _ _ _ (Inv_main_start _ _ _ Hs0) He) as Hi.
  split_and!.
  - by eapply no_sentinel.
  - intros Hq w c. by apply get_blocks.
  - intros Hj.
    destruct (main_run_facts conc total evs (main_finish s).1 (main_finish s).2)
      as (_ & Hp & _ & Hq & Hw & _).
    { exists s0. split; [done|]. exists s. done. }
    destruct (join_facts _ _ Hi Hj) as (_ & _ & _ & Hg).
    done.
  - apply Forall_forall. intros t Ht.
    destruct t as [|item c|item c status| |item ex|].
    + by left.
    + right; left. by exists item, c.
    + right; right; left. by exists item, c, status.
    + by destruct (no_sentinel _ _ Hi).
    + right; right; right. by exists item, ex.
    + pose proof (inv_live _ _ Hi) as Hl.
      rewrite Forall_forall in Hl. by destruct (Hl _ Ht).
  - intros w item ex Hw evs' s' He'.
    pose proof (exec_raised _ _ _ _ _ _ He' Hw) as Hw'.
    split; [done|].
    eapply raised_blocks_join; [|exact Hw'].
    eapply exec_Inv; [exact Hi | exact He'].
Qed.

(** C5, as the code has it: the queue is made without a bound
    ([maxsize] 0), the fill loop puts every item of the run into it with
    [put_nowait], in index order and with none lost, never finding it
    full, and one more [put_nowait] would succeed as well. *)
Theorem queue_holds_all_requests total :
  ∃ q0, fill total = inr q0
    ∧ maxsize q0 = 0
    ∧ items q0 = Some <$> payloads total
    ∧ qsize q0 = Z.max 0 total
    ∧ unfinished_tasks q0 = qsize q0
    ∧ full q0 = false
    ∧ ∀ x, ∃ q1, put_nowait x q0 = inr q1.
Proof.
  eexists. split; [apply fill_eq|]. unfold qsize, put_nowait, full. simpl.
  rewrite length_fmap, length_payloads.
  split_and!; try done; [lia | eauto].
Qed.

(** C6, as the code has it: the script fails fast, with [SystemExit] and
    exit status 1 before a queue or a worker exists, exactly when the
    endpoint is unset or empty; any other endpoint string and every
    concurrency and request count are accepted, and [main] starts with
    [range(concurrency)] workers and [range(total)] queued items. *)
Theorem missing_endpoint_exits env conc total :
  ((env = None ∨ env = Some "") →
     program_start (F:=F) env conc total = inl (SystemExit missing_msg)
     ∧ exit_status (SystemExit missing_msg) ≠ 0)
  ∧ (∀ ep, env = Some ep → ep ≠ "" →
       ∃ s0, program_start (F:=F) env conc total = inr s0
         ∧ workers s0 = replicate (Z.to_nat conc) WGet
         ∧ items (q s0) = Some <$> payloads total).
Proof.
  split.
  - by intros [-> | ->].
  - intros ep -> Hne. unfold program_start, load_module.
    destruct (String.eqb_spec ep "") as [?|_]; [done|].
    rewrite main_start_eq. eauto.
Qed.

(** C7: the summary of a non-empty result list, seen as [rs] followed by
    a last outcome: its request count is the number of outcomes, its
    success count is the number of outcomes whose status is exactly 200
    (the last one adds to it only if its status is 200), and the average
    divides the sum of all latencies, the last one included whatever its
    status, by the number of outcomes. *)
Theorem summary_counts_200 (rs : list (Z * F)) (st : Z) (l : F) :
  ∃ sm, summary (rs ++ [(st, l)]) = inr sm
    ∧ requests sm = S (length rs)
    ∧ ok sm = (count_occ Z.eq_dec rs.*1 200%Z
               + (if decide (st = 200%Z) then 1 else 0))%nat
    ∧ (ok sm ≤ requests sm)%nat
    ∧ avg_latency sm =
        fdiv_int (fadd (py_sum rs.*2) l) (Z.of_nat (S (length rs))).
Proof.
  assert (length (rs ++ [(st, l)]) = S (length rs)) as Hlen.
  { rewrite length_app. simpl. lia. }
  assert (length (filter (λ r : Z * F, r.1 = 200) (rs ++ [(st, l)])) =
          (count_occ Z.eq_dec rs.*1 200%Z
           + (if decide (st = 200%Z) then 1 else 0))%nat) as Hok.
  { rewrite filter_app, length_app, ok_count_occ, filter_cons. simpl.
    by destruct (decide (st = 200)). }
  rewrite summary_nonempty by (by destruct rs).
  eexists. split; [done|]. simpl. rewrite Hlen, Hok. split_and!; try done.
  - pose proof (length_filter (λ r : Z * F, r.1 = 200) (rs ++ [(st, l)])).
    rewrite <- Hok. lia.
  - rewrite fmap_app. simpl. by rewrite py_sum_snoc.
Qed.

(** C8: the workload of a run is the list of the items [payload i] for
    [i] from 0 to [total - 1]; any two runs of [main] with the same
    concurrency and total against the same deterministic stub, whatever
    their schedules, agree on what they print (the same two counts, or
    the same exception); and with at least one worker and a stub that
    answers every item such a run exists. *)
Theorem runs_repeatable stub conc total :
  (length (payloads total) = Z.to_nat total
     ∧ ∀ i, (i < Z.to_nat total)%nat →
         payloads total !! i = Some (payload (Z.of_nat i)))
  ∧ (∀ evs1 evs2 (s1 s2 : @State F) out1 out2,
       main_run_stub stub conc total evs1 s1 out1 →
       main_run_stub stub conc total evs2 s2 out2 →
       counts out1 = counts out2)
  ∧ (1 ≤ conc →
     (∀ item, item ∈ payloads total → ∃ st, stub item = inr st) →
     ∃ evs (s : @State F) out, main_run_stub stub conc total evs s out).
Proof.
  split_and!.
  - apply length_payloads.
  - apply payloads_lookup.
  - assert (∀ evs (s : @State F) out,
              main_run_stub stub conc total evs s out →
              counts out =
                match Z.to_nat total with
                | O => inl ZeroDivisionError
                | S _ => inr (Z.to_nat total,
                              length (filter (λ x : exn + Z, x = inr 200)
                                        (stub <$> payloads total)))
                end) as Hone.
    { intros evs s out (s0 & Hs0 & Hst & s1 & He & Hj & Hf).
      destruct (main_run_facts conc total evs s out)
        as (Hl & Hp & _ & _ & _ & ->).
      { exists s0. split; [done|]. by exists s1. }
      assert (Conforms stub s0) as Hc0.
      { rewrite main_start_eq in Hs0. injection Hs0 as <-.
        split; simpl; [done|]. intros w item c0 st Hw.
        apply lookup_replicate in Hw as [? _]. done. }
      pose proof (stub_run_Conforms _ _ _ _ Hc0 Hst He) as [Hres _].
      injection Hf as <- _. simpl in *.
      unfold summary. destruct (results s1) as [|r rs] eqn:Hrs.
      { simpl in Hl. by rewrite <- Hl. }
      rewrite <- Hrs in *. simpl. rewrite <- Hl.
      assert (length (results s1) ≠ 0)%nat as Hne by (by rewrite Hrs).
      destruct (length (results s1)) eqn:Hn; [done|].
      by rewrite ok_count_stub, Hres, Hp. }
    intros evs1 evs2 s1 s2 out1 out2 H1 H2.
    by rewrite (Hone _ _ _ H1), (Hone _ _ _ H2).
  - intros Hc Hstub.
    assert (∃ sts, inr <$> sts = stub <$> payloads total) as [sts Hsts].
    { induction (payloads total) as [|item l IH]; [by exists []|].
      destruct IH as [sts Hsts]; [intros; apply Hstub; by right|].
      destruct (Hstub item) as [st Hst]; [by left|].
      exists (st :: sts). rewrite !fmap_cons. by rewrite Hst, Hsts. }
    assert (length sts = Z.to_nat total) as Hlen.
    { apply (f_equal length) in Hsts.
      by rewrite !length_fmap, length_payloads in Hsts. }
    destruct (main_run_serial conc total fzero sts Hc Hlen)
      as (s & out & (s0 & Hs0 & Hr) & _).
    exists (serial 0 fzero sts), s, out, s0. split_and!; try done.
    rewrite main_start_eq in Hs0. injection Hs0 as <-.
    eapply (stub_run_serial stub 0 fzero (payloads total) _ []); simpl.
    + apply lookup_replicate_2. lia.
    + by rewrite app_nil_r.
    + done.
    + rewrite length_payloads. lia.
Qed.

End HarnessClaims.

(** ** Concrete runs, with rational clock readings *)

Section HarnessRuns.
Import LoadTest.

Lemma outcomes_equal_total_witness :
  1 ≤ 2 ≤ 3
  ∧ ∃ evs (s : @State Q) out,
      main_run 2 3 evs s out ∧ (results s).*1 = [200; 500; 200].
Proof.
  split; [lia|].
  exact (proj1 (proj2 (outcomes_equal_total (F:=Q) 2 3 ltac:(lia)))
           [200; 500; 200] eq_refl).
Defined.

(** A timeout on the only request of a run: nothing is recorded, the worker
    is dead, and [join] can never return. *)
Lemma request_failure_kills_worker :
  ∃ s0 s : @State Q,
    main_start 1 1 = inr s0
    ∧ exec [EvGet 0 0%Q; EvExn 0 TimeoutError] s0 = Some s
    ∧ results s = []
    ∧ workers s = [WRaised (payload 0) TimeoutError]
    ∧ ∀ evs s', exec evs s = Some s' →
        workers s' = [WRaised (payload 0) TimeoutError]
        ∧ join_ready (q s') = false.
Proof.
  eexists _, _. split; [reflexivity|]. split; [reflexivity|].
  split; [reflexivity|]. split; [reflexivity|].
  intros evs s' He.
  assert (workers s' !! 0%nat = Some (WRaised (payload 0) TimeoutError)) as Hw.
  { by eapply exec_raised. }
  split.
  - apply exec_length_workers in He. simpl in He.
    destruct (workers s') as [|t [|??]]; try done.
    by injection Hw as ->.
  - eapply (raised_blocks_join (Some <$> payloads 1)); [|done].
    eapply exec_Inv; [|exact He].
    eapply (exec_Inv _ [EvGet 0%nat 0%Q; EvExn 0%nat TimeoutError]);
      [by apply (Inv_main_start 1 1) | reflexivity].
Qed.

Lemma response_recorded_witness :
  ∃ s0 s : @State Q,
    main_start 1 1 = inr s0
    ∧ exec [EvGet 0 0%Q] s0 = Some s
    ∧ workers s !! 0%nat = Some (WPost (payload 0) 0%Q)
    ∧ exec [EvResp 0 500; EvBody 0 1%Q] s =
        Some {| q := {| maxsize := 0; items := []; unfinished_tasks := 0 |};
                workers := [WGet];
                results := [(500, (1 - 0)%Q)];
                handled := [payload 0] |}.
Proof.
  eexists _, _. split; [reflexivity|]. split; [reflexivity|].
  split; [reflexivity|].
  exact (proj1 (response_recorded (F:=Q) 1 1 [EvGet 0%nat 0%Q] _ _
                  0%nat (payload 0) 0%Q eq_refl eq_refl eq_refl) 500 1%Q).
Defined.

(** One worker, one request, answered: when [join] returns the worker is
    not over, it is suspended in a [get()] that can never return, and it
    ends cancelled. *)
Lemma worker_only_cancelled :
  ∃ s0 s : @State Q,
    main_start 1 1 = inr s0
    ∧ exec [EvGet 0 0%Q; EvResp 0 200; EvBody 0 1%Q] s0 = Some s
    ∧ join_ready (q s) = true
    ∧ items (q s) = []
    ∧ workers s = [WGet]
    ∧ (∀ e, step e s = None)
    ∧ workers (main_finish s).1 = [WCancelled].
Proof.
  eexists _, _. split; [reflexivity|]. split; [reflexivity|].
  split_and!; try reflexivity.
  intros e. eapply (drained_stuck (Some <$> payloads 1)); [|reflexivity].
  eapply (exec_Inv _ [EvGet 0%nat 0%Q; EvResp 0%nat 200; EvBody 0%nat 1%Q]);
    [by apply (Inv_main_start 1 1) | reflexivity].
Qed.

Lemma workers_end_by_cancel_witness :
  ∃ s0 s : @State Q,
    main_start 2 2 = inr s0
    ∧ exec [EvGet 0 0%Q; EvGet 1 0%Q; EvResp 1 503; EvBody 1 2%Q;
            EvResp 0 200; EvBody 0 3%Q] s0 = Some s
    ∧ join_ready (q s) = true
    ∧ (WReturned ∉ workers s)
    ∧ handled s ≡ₚ payloads 2
    ∧ workers (main_finish s).1 = replicate (Z.to_nat 2) WCancelled.
Proof.
  eexists _, _. split; [reflexivity|]. split; [reflexivity|].
  split; [reflexivity|].
  pose proof (workers_end_by_cancel (F:=Q) 2 2
                [EvGet 0%nat 0%Q; EvGet 1%nat 0%Q; EvResp 1%nat 503;
                 EvBody 1%nat 2%Q; EvResp 0%nat 200; EvBody 0%nat 3%Q]
                _ _ eq_refl eq_refl)
    as (Hn & _ & Hj & _).
  specialize (Hj eq_refl) as (_ & Hp & _ & Hw).
  exact (conj Hn (conj Hp Hw)).
Defined.

(** No capacity bounds the queue of all runs: it holds [total] items. *)
Lemma queue_grows_with_total :
  (¬ ∃ cap, ∀ total q0, fill total = inr q0 → qsize q0 ≤ cap)
  ∧ ∃ q0, fill 64 = inr q0
      ∧ maxsize q0 = 0 ∧ qsize q0 = 64 ∧ full q0 = false.
Proof.
  split.
  - intros [cap Hcap].
    specialize (Hcap (Z.max 0 cap + 1) _ (fill_eq _)).
    unfold qsize in Hcap. simpl in Hcap.
    rewrite length_fmap, length_payloads in Hcap. lia.
  - eexists. split; [apply fill_eq|]. by vm_compute.
Qed.

(** A configuration with no worker is accepted and leaves [main] waiting
    for ever; a negative request count is accepted, five workers are
    created and the run ends in the division by zero; an endpoint that is
    no URL is accepted and its worker takes the work item. *)
Lemma invalid_config_not_rejected :
  (∃ s0 : @State Q,
     program_start (Some "http://gpu.local/infer") 0 1 = inr s0
     ∧ workers s0 = [] ∧ join_ready (q s0) = false
     ∧ ∀ evs s, exec evs s0 = Some s → s = s0)
  ∧ (∃ s0 : @State Q,
       program_start (Some "http://gpu.local/infer") 5 (-1) = inr s0
       ∧ length (workers s0) = 5%nat
       ∧ run_from s0 [] (main_finish s0).1 (inl ZeroDivisionError))
  ∧ (∃ s0 s : @State Q,
       program_start (Some "not a url") 1 1 = inr s0
       ∧ step (EvGet 0 0%Q) s0 = Some s
       ∧ workers s = [WPost (payload 0) 0%Q]).
Proof.
  split_and!.
  - eexists. split; [reflexivity|]. split; [reflexivity|]. split; [reflexivity|].
    intros [|e evs] s He; simpl in He; [by injection He|].
    by destruct e.
  - eexists. split; [reflexivity|]. split; [reflexivity|].
    eexists. split; [reflexivity|]. by split.
  - eexists _, _. split; [reflexivity|]. by split.
Qed.

Lemma missing_endpoint_exits_witness :
  (program_start (F:=Q) None 5 50 = inl (SystemExit missing_msg)
   ∧ exit_status (SystemExit missing_msg) ≠ 0)
  ∧ ∃ s0 : @State Q,
      program_start (Some "http://gpu.local/infer") 5 50 = inr s0
      ∧ workers s0 = replicate (Z.to_nat 5) WGet
      ∧ items (q s0) = Some <$> payloads 50.
Proof.
  split.
  - exact (proj1 (missing_endpoint_exits (F:=Q) None 5 50)
             (or_introl eq_refl)).
  - exact (proj2 (missing_endpoint_exits (F:=Q)
                    (Some "http://gpu.local/infer") 5 50)
             "http://gpu.local/infer" eq_refl ltac:(done)).
Defined.

(** Two schedules of the same run against a stub that fails item 1: one
    worker serving everything, and two workers interleaved. *)
Lemma runs_repeatable_witness :
  ∃ (s1 s2 : @State Q) out1 out2,
    main_run_stub (λ item, inr (if image_id item =? 1 then 500 else 200)) 2 3
      [EvGet 0 0%Q; EvResp 0 200; EvBody 0 1%Q;
       EvGet 0 1%Q; EvResp 0 500; EvBody 0 2%Q;
       EvGet 0 2%Q; EvResp 0 200; EvBody 0 3%Q] s1 out1
    ∧ main_run_stub (λ item, inr (if image_id item =? 1 then 500 else 200)) 2 3
        [EvGet 1 0%Q; EvGet 0 0%Q; EvResp 0 500; EvResp 1 200;
         EvBody 0 1%Q; EvGet 0 1%Q; EvBody 1 2%Q; EvResp 0 200;
         EvBody 0 3%Q] s2 out2
    ∧ results s1 ≠ results s2
    ∧ counts out1 = counts out2.
Proof.
  eexists _, _, _, _.
  assert (∀ evs (s1 : @State Q) s out,
            main_start 2 3 = inr s1 →
            stub_run (λ item, inr (if image_id item =? 1 then 500 else 200))
              evs s1 = true →
            run_from s1 evs s out →
            main_run_stub
              (λ item, inr (if image_id item =? 1 then 500 else 200))
              2 3 evs s out) as Hrun.
  { intros evs s1 s out ???. by exists s1. }
  assert (∀ A B C D : Prop, A → B → C → (A → B → D) → A ∧ B ∧ C ∧ D)
    as Hand by tauto.
  apply Hand.
  - apply (Hrun _ _ _ _ eq_refl); [reflexivity|].
    eexists. split; [reflexivity|]. split; reflexivity.
  - apply (Hrun _ _ _ _ eq_refl); [reflexivity|].
    eexists. split; [reflexivity|]. split; reflexivity.
  - simpl. discriminate.
  - intros H1 H2.
    exact (proj1 (proj2 (runs_repeatable (F:=Q) _ 2 3)) _ _ _ _ _ _ H1 H2).
Defined.

End HarnessRuns.

(** * The readiness probe *)

Section HealthClaims.
Import Health.
Context {Conn : Type}.

(** What the [try] block of [readyz] raises, if anything. *)
Lemma readyz_body_cases (connect : exn + Conn) (close : Conn → exn + unit) :
  (∃ e, (connect = inl e ∨ ∃ conn, connect = inr conn ∧ close conn = inl e))
  ∨ (∃ conn, connect = inr conn ∧ close conn = inr ()).
Proof.
  destruct connect as [e|conn]; [left; eauto|].
  destruct (close conn) as [e|[]] eqn:Hc; [left | right]; eauto 6.
Qed.

(** C9, as the code has it: when everything that connecting and closing
    raise is an instance of [Exception], [readyz] returns a response and
    raises nothing: ready when both succeed, not ready with the message of
    the exception otherwise. *)
Theorem readyz_catches_Exception
    (connect : exn + Conn) (close : Conn → exn + unit) :
  (∀ e, connect = inl e → is_Exception e = true) →
  (∀ conn e, connect = inr conn → close conn = inl e → is_Exception e = true) →
  ∃ r, readyz connect close = inr r
    ∧ ((∃ conn, connect = inr conn ∧ close conn = inr ()) →
         r = {[ "ready" := JBool true ]})
    ∧ (∀ e, (connect = inl e ∨ ∃ conn, connect = inr conn ∧ close conn = inl e) →
         r = <[ "error" := JStr (str e) ]> {[ "ready" := JBool false ]}).
Proof.
  intros H1 H2. unfold readyz, try_except_Exception.
  destruct connect as [e|conn].
  - rewrite (H1 e eq_refl). eexists. split; [done|]. split.
    + by intros (? & ? & _).
    + intros e' [[= <-]|(? & ? & _)]; done.
  - destruct (close conn) as [e|[]] eqn:Hc.
    + rewrite (H2 conn e eq_refl Hc). eexists. split; [done|]. split.
      * intros (conn' & [= <-] & Hc'). congruence.
      * intros e' [?|(conn' & [= <-] & Hc')]; [done|]. congruence.
    + eexists. split; [done|]. split; [done|].
      intros e' [?|(conn' & [= <-] & Hc')]; [done|]. congruence.
Qed.

(** An exception outside [Exception] passes through the handler. *)
Lemma readyz_passes_BaseException
    (connect : exn + Conn) (close : Conn → exn + unit) e :
  (connect = inl e ∨ ∃ conn, connect = inr conn ∧ close conn = inl e) →
  is_Exception e = false →
  readyz connect close = inl e.
Proof.
  unfold readyz, try_except_Exception.
  intros [->|(conn & -> & ->)] ->; done.
Qed.

End HealthClaims.

Section HealthRuns.
Import Health.

Lemma readyz_catches_Exception_witness :
  ∃ r, readyz (Conn:=unit) (inl (OSError "Connection refused")) (λ _, inr ())
       = inr r
    ∧ r = <[ "error" := JStr "Connection refused" ]> {[ "ready" := JBool false ]}.
Proof.
  destruct (readyz_catches_Exception (Conn:=unit)
              (inl (OSError "Connection refused")) (λ _, inr ()))
    as (r & Hr & _ & He).
  - by intros e [= <-].
  - by intros conn e [=].
  - exists r. split; [exact Hr|].
    apply (He (OSError "Connection refused")). by left.
Defined.

(** The request is cancelled while the probe awaits the connection, or
    the interpreter is interrupted while it closes it: the exception
    leaves [readyz]. *)
Lemma readyz_propagates_cancel :
  readyz (Conn:=unit) (inl CancelledError) (λ _, inr ()) = inl CancelledError
  ∧ readyz (Conn:=unit) (inr ()) (λ _, inl KeyboardInterrupt)
    = inl KeyboardInterrupt.
Proof. by split. Qed.

End HealthRuns.

(** * The logger *)

Section LoggerClaims.
Import Logger.
Context `{StrOps}.

(** C10: for a name whose logger already has a handler, [get_logger]
    returns that logger and leaves the registry as it was: no handler is
    added and the level is not changed, whatever the file name and the
    environment. *)
Theorem get_logger_idempotent os name log_file (reg : gmap string LoggerObj) :
  (∃ lg, reg !! name = Some lg ∧ handlers lg ≠ []) →
  get_logger os name log_file reg = (reg, inr name).
Proof.
  intros (lg & Hlg & Hh). unfold get_logger, getLogger. rewrite Hlg.
  by destruct (handlers lg).
Qed.

(** A call that returns leaves the logger with a handler. *)
Lemma get_logger_configured os name log_file (reg reg1 : gmap string LoggerObj) :
  get_logger os name log_file reg = (reg1, inr name) →
  ∃ lg, reg1 !! name = Some lg ∧ handlers lg ≠ [].
Proof.
  unfold get_logger, getLogger. intros Hg.
  destruct (reg !! name) as [lg|] eqn:Hlg.
  - destruct (handlers lg) as [|h hs] eqn:Hh.
    + destruct (setLevel _ lg) as [?|lg1]; [by inversion Hg|].
      destruct (makedirs os _); [by inversion Hg|].
      destruct (open_file os _); [by inversion Hg|].
      injection Hg as <-. rewrite lookup_insert_eq.
      eexists. split; [done|]. simpl. by destruct (handlers lg1).
    + injection Hg as <-. exists lg. by rewrite Hlg, Hh.
  - simpl in Hg.
    destruct (setLevel _ _) as [?|lg1]; [by inversion Hg|].
    destruct (makedirs os _); [by inversion Hg|].
    destruct (open_file os _); [by inversion Hg|].
    injection Hg as <-. rewrite lookup_insert_eq.
    eexists. split; [done|]. simpl. by destruct (handlers lg1).
Qed.

(** Calling [get_logger] again after a call that returned changes
    nothing. *)
Lemma get_logger_twice os os' name f f' (reg reg1 : gmap string LoggerObj) :
  get_logger os name f reg = (reg1, inr name) →
  get_logger os' name f' reg1 = (reg1, inr name).
Proof.
  intros Hg.
  destruct (get_logger_configured _ _ _ _ _ Hg) as (lg & Hlg & Hh).
  unfold get_logger, getLogger. rewrite Hlg. by destruct (handlers lg).
Qed.

(** The first call on a fresh name sets the level that the upper-cased
    LOG_LEVEL (or INFO) names and attaches the file handler and the stream
    handler, in this order. *)
Lemma get_logger_fresh os name log_file (reg : gmap string LoggerObj) n :
  reg !! name = None →
  nameToLevel (str_upper (default "INFO" (LOG_LEVEL os))) = Some n →
  makedirs os (dirname os log_file) = None →
  open_file os log_file = None →
  (get_logger os name log_file reg).1 !! name =
    Some {| level := n;
            handlers :=
              [RotatingFileHandler log_file 5242880 5 (Some JsonFormatter);
               StreamHandler (Some JsonFormatter)] |}.
Proof.
  intros Hn Hl Hm Ho. unfold get_logger, getLogger, setLevel.
  rewrite Hn. simpl. rewrite Hl, Hm, Ho. simpl.
  by rewrite lookup_insert_eq.
Qed.

End LoggerClaims.

Section LoggerRuns.
Import Logger.

Lemma get_logger_idempotent_witness :
  get_logger
    {| LOG_LEVEL := Some "debug"; dirname := λ _, "logs";
       makedirs := λ _, None; open_file := λ _, None |}
    "app" "logs/other.log"
    {[ "app" := {| level := 20;
                   handlers := [StreamHandler (Some JsonFormatter)] |} ]}
  = ({[ "app" := {| level := 20;
                    handlers := [StreamHandler (Some JsonFormatter)] |} ]},
     inr "app").
Proof.
  apply get_logger_idempotent.
  eexists. split; [apply lookup_singleton_eq | done].
Defined.

End LoggerRuns.

(** * Further properties of the load-test harness *)

Section HarnessMore.
Import LoadTest.
Context {F : Type} `{FloatOps F}.

(** The queue only shrinks from the front. *)
Lemma step_queue_suffix (all : list (option WorkItem)) e (s s' : @State F) :
  (∃ k, items (q s) = drop k all) →
  step e s = Some s' →
  ∃ k, items (q s') = drop k all.
Proof.
  intros [k Hk] Hs.
  assert (items (q s') = items (q s) ∨ items (q s') = tail (items (q s)))
    as [->| ->].
  { destruct e as [w ?|w ?|w ?|w ex]; simpl in Hs;
      destruct (workers s !! w) as [[]|]; try done.
    - destruct (items (q s)) as [|[item|] rest] eqn:Hq; try done;
        injection Hs as <-; simpl; rewrite Hq; auto.
    - injection Hs as <-. auto.
    - unfold task_done in Hs. simpl in Hs.
      destruct (unfinished_tasks (q s) <=? 0); injection Hs as <-; auto.
    - injection Hs as <-. auto.
    - injection Hs as <-. auto. }
  - by exists k.
  - exists (S k). rewrite Hk. clear. revert all.
    induction k as [|k IH]; intros [|x all]; simpl; done.
Qed.

Lemma exec_queue_suffix (all : list (option WorkItem)) evs (s s' : @State F) :
  (∃ k, items (q s) = drop k all) →
  exec evs s = Some s' →
  ∃ k, items (q s') = drop k all.
Proof.
  revert s. induction evs as [|e evs IH]; intros s Hk He; simpl in He.
  - by inversion He; subst.
  - destruct (step e s) as [s1|] eqn:Hs; [|done].
    eapply IH; [|done]. by eapply step_queue_suffix.
Qed.

(** Results and their items are only ever appended. *)
Lemma step_results_grow e (s s' : @State F) :
  step e s = Some s' →
  ∃ more items,
    results s' = results s ++ more ∧ handled s' = handled s ++ items
    ∧ length more = length items ∧ (length more ≤ 1)%nat.
Proof.
  intros Hs.
  assert (∀ s1 : @State F, results s1 = results s → handled s1 = handled s →
            ∃ more items,
              results s1 = results s ++ more ∧ handled s1 = handled s ++ items
              ∧ length more = length items ∧ (length more ≤ 1)%nat) as Hsame.
  { intros s1 -> ->. exists [], []. rewrite !app_nil_r. simpl. auto with lia. }
  destruct e as [w ?|w ?|w c1|w ex]; simpl in Hs;
    destruct (workers s !! w) as [[| | item c0 st| | |]|]; try done.
  - destruct (items (q s)) as [|[item|] rest]; try done;
      injection Hs as <-; by apply Hsame.
  - injection Hs as <-. by apply Hsame.
  - exists [(st, fsub c1 c0)], [item].
    destruct (task_done _); injection Hs as <-; simpl; auto.
  - injection Hs as <-. by apply Hsame.
  - injection Hs as <-. by apply Hsame.
Qed.

(** X1: once the exchange of some worker has raised, [q.join()] never
    returns, whatever the other workers do: no continuation of the run
    reaches the summary. *)
Theorem raised_exchange_hangs_main conc total evs (s0 s : @State F) w item ex :
  main_start conc total = inr s0 →
  exec evs s0 = Some s →
  workers s !! w = Some (WRaised item ex) →
  (∀ evs' s', exec evs' s = Some s' →
     workers s' !! w = Some (WRaised item ex) ∧ join_ready (q s') = false)
  ∧ ∀ evs' s' out, ¬ main_run conc total (evs ++ evs') s' out.
Proof.
  intros Hs0 He Hw.
  pose proof (exec_Inv _ _ _ _ (Inv_main_start _ _ _ Hs0) He) as Hi.
  assert (∀ evs' s', exec evs' s = Some s' →
            workers s' !! w = Some (WRaised item ex)
            ∧ join_ready (q s') = false) as Hall.
  { intros evs' s' He'.
    assert (workers s' !! w = Some (WRaised item ex)) as Hw'
      by (by eapply exec_raised).
    split; [done|].
    eapply raised_blocks_join; [|exact Hw']. by eapply exec_Inv. }
  split; [exact Hall|].
  intros evs' s' out (s0' & Hs0' & s1 & He1 & Hj & _).
  rewrite Hs0 in Hs0'. injection Hs0' as <-.
  rewrite exec_app, He in He1. simpl in He1.
  destruct (Hall _ _ He1) as [_ Hj']. congruence.
Qed.

(** X2: with no worker (a concurrency of zero or less) and at least one
    request, no step is ever possible and [q.join()] never returns: [main]
    waits for ever. *)
Theorem no_worker_no_progress conc total (s0 : @State F) :
  conc ≤ 0 → 1 ≤ total →
  main_start conc total = inr s0 →
  (∀ evs s, exec evs s0 = Some s → evs = [])
  ∧ join_ready (q s0) = false
  ∧ ∀ evs s out, ¬ main_run conc total evs s out.
Proof.
  intros Hc Ht Hs0. rewrite main_start_eq in Hs0. injection Hs0 as <-.
  replace (Z.to_nat conc) with 0%nat by lia. simpl.
  assert (∀ evs (s : @State F),
            exec evs {| q := {| maxsize := 0;
                                items := Some <$> payloads total;
                                unfinished_tasks := Z.of_nat (Z.to_nat total) |};
                        workers := []; results := []; handled := [] |} = Some s →
            evs = []) as Hnone.
  { intros [|e evs] s He; [done|]. simpl in He. by destruct e. }
  assert (join_ready {| maxsize := 0; items := Some <$> payloads total;
                        unfinished_tasks := Z.of_nat (Z.to_nat total) |}
          = false) as Hj.
  { unfold join_ready. simpl. apply Z.leb_gt. lia. }
  split_and!; [exact Hnone | exact Hj |].
  intros evs s out (s0' & Hs0' & s1 & He1 & Hj1 & _).
  rewrite main_start_eq in Hs0'. injection Hs0' as <-.
  replace (Z.to_nat conc) with 0%nat in He1 by lia. simpl in He1.
  pose proof (Hnone _ _ He1) as ->. simpl in He1. injection He1 as <-.
  simpl in Hj1. congruence.
Qed.

(** X3: with a request count of zero or less, whatever the concurrency,
    [main] has exactly one behaviour: no worker ever takes a step and the
    run ends in [ZeroDivisionError]. *)
Theorem nonpositive_total_divides conc total :
  total ≤ 0 →
  (∃ s : @State F, main_run conc total [] s (inl ZeroDivisionError))
  ∧ ∀ evs (s : @State F) out,
      main_run conc total evs s out → evs = [] ∧ out = inl ZeroDivisionError.
Proof.
  intros Ht. split.
  - eexists. eexists. split; [apply main_start_eq|].
    eexists. split; [done|].
    replace (Z.to_nat total) with 0%nat by lia. by split.
  - intros evs s out Hr. split.
    + destruct Hr as (s0 & Hs0 & s1 & He & _).
      pose proof (Inv_main_start _ _ _ Hs0) as Hi.
      destruct evs as [|e evs]; [done|]. simpl in He.
      rewrite (drained_stuck _ _ e Hi) in He; [done|].
      rewrite main_start_eq in Hs0. injection Hs0 as <-.
      unfold join_ready. simpl. apply Z.leb_le. lia.
    + destruct (main_run_facts _ _ _ _ _ Hr) as (Hl & _ & _ & _ & _ & ->).
      replace (Z.to_nat total) with 0%nat in Hl by lia.
      by destruct (results s).
Qed.

(** X4: requests are dispatched in index order.  In every state of a run
    the queue is the list of the payloads from some index [k] on, and the
    next [q.get()] that returns gives its worker the item of index [k]. *)
Theorem dispatch_in_index_order conc total evs (s0 s : @State F) :
  main_start conc total = inr s0 →
  exec evs s0 = Some s →
  ∃ k, (k + length (items (q s)) = Z.to_nat total)%nat
    ∧ items (q s) = Some <$> drop k (payloads total)
    ∧ ∀ w c s', step (EvGet w c) s = Some s' →
        workers s' !! w = Some (WPost (payload (Z.of_nat k)) c)
        ∧ items (q s') = Some <$> drop (S k) (payloads total).
Proof.
  intros Hs0 He.
  destruct (exec_queue_suffix (Some <$> payloads total) evs s0 s)
    as [k Hk]; [|done|].
  { exists 0%nat. rewrite main_start_eq in Hs0. by injection Hs0 as <-. }
  rewrite <- fmap_drop in Hk.
  assert (length (items (q s)) ≤ Z.to_nat total)%nat as Hle.
  { rewrite Hk, length_fmap, length_drop, length_payloads. lia. }
  exists (Z.to_nat total - length (items (q s)))%nat.
  assert (drop k (payloads total)
          = drop (Z.to_nat total - length (items (q s))) (payloads total))
    as Hd.
  { destruct (decide (k ≤ Z.to_nat total)%nat) as [Hkt|Hkt].
    - f_equal. rewrite Hk, length_fmap, length_drop, length_payloads. lia.
    - rewrite Hk, length_fmap, length_drop, length_payloads.
      rewrite !drop_ge by (rewrite ?length_payloads; lia). done. }
  rewrite Hd in Hk. clear Hd.
  split; [lia|]. split; [done|].
  intros w c s' Hs. simpl in Hs.
  destruct (workers s !! w) as [[]|] eqn:Hw; try done.
  destruct (items (q s)) as [|x rest] eqn:Hq; [done|].
  set (k' := (Z.to_nat total - length (x :: rest))%nat) in *.
  assert (k' < Z.to_nat total)%nat as Hlt by (simpl in *; lia).
  assert (w < length (workers s))%nat as Hwl by (by eapply lookup_lt_Some).
  rewrite (drop_S _ (payload (Z.of_nat k')) k') in Hk
    by (by apply payloads_lookup).
  rewrite fmap_cons in Hk. injection Hk as Hx Hrest. rewrite Hx in Hs.
  injection Hs as <-. simpl.
  rewrite list_lookup_insert_eq by done. by rewrite Hq.
Qed.

(** X5: in every state of a run the counter that [q.join()] waits on is
    the number of requests not recorded yet; so no more than [total]
    outcomes are ever recorded, and [join] can return exactly when all of
    them are. *)
Theorem join_counter_is_unrecorded conc total evs (s0 s : @State F) :
  main_start conc total = inr s0 →
  exec evs s0 = Some s →
  unfinished_tasks (q s) = Z.of_nat (Z.to_nat total - length (results s))
  ∧ (length (results s) ≤ Z.to_nat total)%nat
  ∧ (join_ready (q s) = true ↔ length (results s) = Z.to_nat total).
Proof.
  intros Hs0 He.
  pose proof (exec_Inv _ _ _ _ (Inv_main_start _ _ _ Hs0) He)
    as [Hp Hc Hl Hv].
  apply Permutation_length in Hp as Hlen.
  rewrite !length_app, !length_fmap, length_payloads, <- Hl in Hlen.
  rewrite length_app in Hc.
  assert (unfinished_tasks (q s)
          = Z.of_nat (Z.to_nat total - length (results s))) as Hu by lia.
  split; [done|]. split; [lia|].
  unfold join_ready. rewrite Hu. rewrite Z.leb_le. lia.
Qed.

(** X6: along any schedule the result list only grows at its end, by at
    most one outcome per event: what has been recorded is never changed,
    reordered or removed. *)
Theorem results_append_only evs (s s' : @State F) :
  exec evs s = Some s' →
  ∃ more,
    results s' = results s ++ more ∧ (length more ≤ length evs)%nat.
Proof.
  revert s. induction evs as [|e evs IH]; intros s He; simpl in He.
  - injection He as <-. exists []. by rewrite app_nil_r.
  - destruct (step e s) as [s1|] eqn:Hs; [|done].
    destruct (step_results_grow _ _ _ Hs) as (m1 & _ & Hr1 & _ & _ & Hl1).
    destruct (IH _ He) as (m2 & Hr2 & Hl2).
    exists (m1 ++ m2). rewrite Hr2, Hr1, <- app_assoc.
    split; [done|]. rewrite length_app. simpl. lia.
Qed.

(** X7: the two counts of the summary do not depend on the order in which
    the workers appended their outcomes. *)
Theorem summary_counts_order (rs1 rs2 : list (Z * F)) :
  rs1 ≡ₚ rs2 → counts (summary rs1) = counts (summary rs2).
Proof.
  intros Hp.
  assert (∀ rs : list (Z * F),
            counts (summary rs) =
              match length rs with
              | O => inl ZeroDivisionError
              | S _ => inr (length rs, length (filter (λ r, r.1 = 200) rs))
              end) as Hc.
  { by intros [|r rs]. }
  assert (length (filter (λ r : Z * F, r.1 = 200) rs1)
          = length (filter (λ r : Z * F, r.1 = 200) rs2)) as Hok
    by (by rewrite Hp).
  by rewrite !Hc, (Permutation_length Hp), Hok.
Qed.

(** X8: more workers than requests are harmless.  For every concurrency
    of at least 1 and every positive request count, every finished run has
    recorded exactly [total] outcomes, all workers end cancelled, and every
    schedule in which no exchange has raised can be completed. *)
Theorem surplus_workers_harmless conc total :
  1 ≤ conc → 1 ≤ total →
  (∀ evs (s : @State F) out, main_run conc total evs s out →
     length (results s) = Z.to_nat total
     ∧ workers s = replicate (Z.to_nat conc) WCancelled
     ∧ ∃ sm, out = inr sm ∧ requests sm = Z.to_nat total)
  ∧ (∀ evs (s0 s1 : @State F),
       main_start conc total = inr s0 → exec evs s0 = Some s1 →
       Forall not_raised (workers s1) →
       ∃ evs' s out, main_run conc total (evs ++ evs') s out).
Proof.
  intros Hc Ht. split.
  - intros evs s out Hr.
    destruct (main_run_facts _ _ _ _ _ Hr) as (Hl & _ & _ & _ & Hw & ->).
    split_and!; try done.
    rewrite summary_nonempty; [eexists; split; [done|]; simpl; lia|].
    intros Hnil. rewrite Hnil in Hl. simpl in Hl. lia.
  - intros evs s0 s1 Hs0 He Hr.
    pose proof (exec_Inv _ _ _ _ (Inv_main_start _ _ _ Hs0) He) as Hi.
    destruct (completion (λ _, 200) (payloads total) (work_left s1) s1)
      as (evs' & s2 & He' & Hj); try done.
    { apply exec_length_workers in He. intros Hnil. rewrite Hnil in He.
      rewrite main_start_eq in Hs0. injection Hs0 as <-. simpl in He.
      rewrite length_replicate in He. simpl in He. lia. }
    exists evs', (main_finish s2).1, (main_finish s2).2, s0.
    split; [done|]. exists s2. rewrite exec_app, He. simpl.
    split; [done|]. split; [done|]. reflexivity.
Qed.

End HarnessMore.

Section HarnessMoreRuns.
Import LoadTest.

Lemma raised_exchange_hangs_main_witness :
  ∃ s0 s s' : @State Q,
    main_start 2 2 = inr s0
    ∧ exec [EvGet 0 0%Q; EvExn 0 TimeoutError] s0 = Some s
    ∧ workers s !! 0%nat = Some (WRaised (payload 0) TimeoutError)
    ∧ exec [EvGet 1 0%Q; EvResp 1 200; EvBody 1 1%Q] s = Some s'
    ∧ join_ready (q s') = false.
Proof.
  eexists _, _, _. split; [reflexivity|]. split; [reflexivity|].
  split; [reflexivity|]. split; [reflexivity|].
  exact (proj2 (proj1 (raised_exchange_hangs_main (F:=Q) 2 2
                         [EvGet 0%nat 0%Q; EvExn 0%nat TimeoutError] _ _
                         0%nat (payload 0) TimeoutError
                         eq_refl eq_refl eq_refl)
                  [EvGet 1%nat 0%Q; EvResp 1%nat 200; EvBody 1%nat 1%Q] _
                  eq_refl)).
Defined.

Lemma no_worker_no_progress_witness :
  ∃ s0 : @State Q,
    main_start 0 3 = inr s0
    ∧ join_ready (q s0) = false
    ∧ ∀ evs s out, ¬ main_run 0 3 evs s out.
Proof.
  eexists. split; [reflexivity|].
  exact (proj2 (no_worker_no_progress (F:=Q) 0 3 _
                  ltac:(lia) ltac:(lia) eq_refl)).
Defined.

Lemma nonpositive_total_divides_witness :
  -2 ≤ 0 ∧ ∃ s : @State Q, main_run 4 (-2) [] s (inl ZeroDivisionError).
Proof.
  split; [lia|].
  exact (proj1 (nonpositive_total_divides (F:=Q) 4 (-2) ltac:(lia))).
Defined.

Lemma dispatch_in_index_order_witness :
  ∃ (s0 s : @State Q) k,
    main_start 2 3 = inr s0
    ∧ exec [EvGet 1 0%Q; EvGet 0 1%Q] s0 = Some s
    ∧ (k + length (items (q s)) = Z.to_nat 3)%nat
    ∧ items (q s) = Some <$> drop k (payloads 3).
Proof.
  destruct (dispatch_in_index_order (F:=Q) 2 3
              [EvGet 1%nat 0%Q; EvGet 0%nat 1%Q] _ _ eq_refl eq_refl)
    as (k & Hk & Hq & _).
  eexists _, _, k. split; [reflexivity|]. split; [reflexivity|].
  split; [exact Hk | exact Hq].
Defined.

Lemma join_counter_is_unrecorded_witness :
  ∃ s0 s : @State Q,
    main_start 1 2 = inr s0
    ∧ exec [EvGet 0 0%Q; EvResp 0 404; EvBody 0 1%Q] s0 = Some s
    ∧ unfinished_tasks (q s) = Z.of_nat (Z.to_nat 2 - length (results s)).
Proof.
  eexists _, _. split; [reflexivity|]. split; [reflexivity|].
  exact (proj1 (join_counter_is_unrecorded (F:=Q) 1 2
                  [EvGet 0%nat 0%Q; EvResp 0%nat 404; EvBody 0%nat 1%Q] _ _
                  eq_refl eq_refl)).
Defined.

Lemma results_append_only_witness :
  ∃ (s0 s s' : @State Q) more,
    main_start 1 2 = inr s0
    ∧ exec [EvGet 0 0%Q; EvResp 0 404; EvBody 0 1%Q] s0 = Some s
    ∧ exec [EvGet 0 1%Q; EvResp 0 200; EvBody 0 3%Q] s = Some s'
    ∧ results s' = results s ++ more ∧ (length more ≤ 3)%nat.
Proof.
  destruct (results_append_only (F:=Q)
              [EvGet 0%nat 1%Q; EvResp 0%nat 200; EvBody 0%nat 3%Q]
              {| q := {| maxsize := 0; items := [Some (payload 1)];
                         unfinished_tasks := 1 |};
                 workers := [WGet];
                 results := [(404, (1 - 0)%Q)];
                 handled := [payload 0] |} _ eq_refl)
    as (more & Hr & Hl).
  eexists _, _, _, more. split; [reflexivity|]. split; [reflexivity|].
  split; [reflexivity|]. split; [exact Hr | exact Hl].
Defined.

Lemma summary_counts_order_witness :
  counts (summary [(200, 1%Q); (500, 2%Q); (200, 3%Q)])
  = counts (summary [(500, 2%Q); (200, 1%Q); (200, 3%Q)]).
Proof.
  apply (summary_counts_order (F:=Q)). apply perm_swap.
Defined.

Lemma surplus_workers_harmless_witness :
  ∃ evs (s : @State Q) out,
    main_run 5 2 evs s out ∧ length (results s) = Z.to_nat 2.
Proof.
  destruct (proj2 (surplus_workers_harmless (F:=Q) 5 2 ltac:(lia) ltac:(lia))
              [] _ _ eq_refl eq_refl)
    as (evs' & s & out & Hr).
  { by repeat constructor. }
  exists ([] ++ evs'), s, out. split; [exact Hr|].
  exact (proj1 (proj1 (surplus_workers_harmless (F:=Q) 5 2
                         ltac:(lia) ltac:(lia)) _ _ _ Hr)).
Defined.

End HarnessMoreRuns.

(** * The JSON formatter *)

Section JsonLogFacts.
Import JsonLog.
Local Open Scope N_scope.

Lemma hex_digit_printable d : d < 16 → printable (hex_digit d).
Proof.
  intros Hd. unfold printable, hex_digit.
  destruct (N.ltb_spec d 10); lia.
Qed.

Lemma hex_digit_inj d1 d2 :
  d1 < 16 → d2 < 16 → hex_digit d1 = hex_digit d2 → d1 = d2.
Proof.
  unfold hex_digit. intros H1 H2.
  destruct (N.ltb_spec d1 10), (N.ltb_spec d2 10); lia.
Qed.

Lemma hex4_printable n : Forall printable (hex4 n).
Proof.
  unfold hex4. repeat constructor;
    apply hex_digit_printable, N.mod_upper_bound; lia.
Qed.

Lemma digits16 n :
  n < 65536 →
  n = 4096 * (n / 4096 mod 16) + 256 * (n / 256 mod 16)
      + 16 * (n / 16 mod 16) + n mod 16.
Proof.
  intros Hn.
  assert (n / 256 = n / 16 / 16) as -> by (by rewrite N.Div0.div_div).
  assert (n / 4096 = n / 16 / 16 / 16) as -> by (by rewrite !N.Div0.div_div).
  pose proof (N.div_mod n 16 ltac:(lia)).
  pose proof (N.div_mod (n / 16) 16 ltac:(lia)).
  pose proof (N.div_mod (n / 16 / 16) 16 ltac:(lia)).
  pose proof (N.div_mod (n / 16 / 16 / 16) 16 ltac:(lia)).
  pose proof (N.mod_upper_bound n 16 ltac:(lia)).
  pose proof (N.mod_upper_bound (n / 16) 16 ltac:(lia)).
  pose proof (N.mod_upper_bound (n / 16 / 16) 16 ltac:(lia)).
  pose proof (N.mod_upper_bound (n / 16 / 16 / 16) 16 ltac:(lia)).
  generalize dependent (n mod 16).
  generalize dependent (n / 16 mod 16).
  generalize dependent (n / 16 / 16 mod 16).
  generalize dependent (n / 16 / 16 / 16 mod 16).
  generalize dependent (n / 16 / 16 / 16 / 16).
  generalize dependent (n / 16 / 16 / 16).
  generalize dependent (n / 16 / 16).
  generalize dependent (n / 16).
  intros. lia.
Qed.

Lemma hex4_inj n m : n < 65536 → m < 65536 → hex4 n = hex4 m → n = m.
Proof.
  intros Hn Hm [= H3 H2 H1 H0].
  apply hex_digit_inj in H3, H2, H1, H0;
    try (apply N.mod_upper_bound; lia).
  by rewrite (digits16 n Hn), (digits16 m Hm), H3, H2, H1, H0.
Qed.

Lemma u_escape_printable n : Forall printable (u_escape n).
Proof.
  unfold u_escape. apply Forall_app. split; [|apply hex4_printable].
  repeat constructor; unfold printable; lia.
Qed.

(** The ten shapes of the escape of one character. *)
Lemma escape_char_cases c :
  (c = 92 ∧ escape_char c = [92; 92])
  ∨ (c = 34 ∧ escape_char c = [92; 34])
  ∨ (c = 8 ∧ escape_char c = [92; 98])
  ∨ (c = 12 ∧ escape_char c = [92; 102])
  ∨ (c = 10 ∧ escape_char c = [92; 110])
  ∨ (c = 13 ∧ escape_char c = [92; 114])
  ∨ (c = 9 ∧ escape_char c = [92; 116])
  ∨ (32 ≤ c ≤ 126 ∧ c ≠ 92 ∧ c ≠ 34 ∧ escape_char c = [c])
  ∨ (c < 65536 ∧ escape_char c = u_escape c)
  ∨ (65536 ≤ c
     ∧ escape_char c =
         u_escape (N.lor 55296 (N.land (N.shiftr (c - 65536) 10) 1023))
         ++ u_escape (N.lor 56320 (N.land (c - 65536) 1023))).
Proof.
  unfold escape_char.
  destruct (N.eqb_spec c 92); [tauto|].
  destruct (N.eqb_spec c 34); [tauto|].
  destruct (N.eqb_spec c 8); [tauto|].
  destruct (N.eqb_spec c 12); [tauto|].
  destruct (N.eqb_spec c 10); [tauto|].
  destruct (N.eqb_spec c 13); [tauto|].
  destruct (N.eqb_spec c 9); [tauto|].
  destruct (N.leb_spec 32 c), (N.leb_spec c 126); simpl;
    try (do 7 right; left; split_and!; done || lia);
    destruct (N.ltb_spec c 65536); auto 20.
Qed.

Lemma escape_char_printable c : Forall printable (escape_char c).
Proof.
  destruct (escape_char_cases c)
    as [[_ ->]|[[_ ->]|[[_ ->]|[[_ ->]|[[_ ->]|[[_ ->]|[[_ ->]|
        [(? & _ & _ & ->)|[[_ ->]|[_ ->]]]]]]]]]];
    try (repeat constructor; unfold printable; lia);
    try apply u_escape_printable.
  apply Forall_app. split; apply u_escape_printable.
Qed.

Lemma of_ascii_printable s :
  Forall (λ a, printable (Ascii.N_of_ascii a)) (String.list_ascii_of_string s) →
  Forall printable (of_ascii s).
Proof. intros Hs. unfold of_ascii. by apply Forall_fmap. Qed.

Lemma encode_printable s : Forall printable (encode_basestring_ascii s).
Proof.
  unfold encode_basestring_ascii. rewrite !Forall_app. split_and!.
  - repeat constructor; unfold printable; lia.
  - apply Forall_bind. apply Forall_forall. intros. apply escape_char_printable.
  - repeat constructor; unfold printable; lia.
Qed.

Lemma dumps_printable d : Forall printable (dumps d).
Proof.
  assert (Forall printable (of_ascii ": ")) as Hc
    by (repeat constructor; unfold printable; simpl; lia).
  assert (Forall printable (of_ascii ", ")) as Hs
    by (repeat constructor; unfold printable; simpl; lia).
  unfold dumps. rewrite !Forall_app. split_and!.
  - repeat constructor; unfold printable; lia.
  - induction d as [|[k v] d IH]; [constructor|].
    destruct d as [|kv d]; cbn [dumps_items] in *;
      rewrite !Forall_app; split_and!; auto using encode_printable.
  - repeat constructor; unfold printable; lia.
Qed.

(** X9: whatever a record contains (quotes, newlines, control characters,
    text outside ASCII), the line that [format] returns consists of
    printable ASCII characters only: it is one line. *)
Theorem format_one_ascii_line r line :
  format r = inr line → Forall printable line.
Proof.
  unfold format. intros Hf.
  destruct (created_iso r); [done|]. destruct (getMessage r); [done|].
  injection Hf as <-. apply dumps_printable.
Qed.

(** ** The escaping can be undone *)

Lemma lor_low k x : x < 1024 → N.lor (k * 1024) x = k * 1024 + x.
Proof.
  intros Hx.
  assert (N.land (k * 1024) x = 0) as Hl.
  { apply N.bits_inj. intros i. rewrite N.land_spec, N.bits_0.
    destruct (N.lt_ge_cases i 10) as [Hi|Hi].
    - change 1024 with (2 ^ 10). by rewrite N.mul_pow2_bits_low.
    - rewrite <- (N.mod_small x (2 ^ 10)) by exact Hx.
      rewrite N.mod_pow2_bits_high by exact Hi. apply andb_false_r. }
  rewrite <- N.lxor_lor by exact Hl. symmetry. by apply N.add_nocarry_lxor.
Qed.

(** The two halves of the surrogate pair of a code point above the basic
    plane. *)
Lemma surrogate_pair c :
  65536 ≤ c ≤ 1114111 →
  N.lor 55296 (N.land (N.shiftr (c - 65536) 10) 1023)
    = 55296 + (c - 65536) / 1024
  ∧ N.lor 56320 (N.land (c - 65536) 1023) = 56320 + (c - 65536) mod 1024
  ∧ (c - 65536) / 1024 < 1024.
Proof.
  intros Hc.
  assert ((c - 65536) / 1024 < 1024) as Hq
    by (apply N.Div0.div_lt_upper_bound; lia).
  assert (∀ y, N.land y 1023 = y mod 1024) as Hland.
  { intros y. change 1023 with (N.ones 10). by rewrite N.land_ones. }
  rewrite !Hland, N.shiftr_div_pow2. change (2 ^ 10) with 1024.
  rewrite (N.mod_small _ _ Hq).
  change 55296 with (54 * 1024). change 56320 with (55 * 1024).
  rewrite !lor_low; [done| |done].
  apply N.mod_upper_bound. lia.
Qed.

Lemma u_escape_prefix_inj n m (r1 r2 : list N) :
  n < 65536 → m < 65536 →
  u_escape n ++ r1 = u_escape m ++ r2 → n = m ∧ r1 = r2.
Proof.
  intros Hn Hm Heq. unfold u_escape in Heq. simpl in Heq.
  injection Heq as H3 H2 H1 H0 Hr. split; [|done].
  apply hex4_inj; try done. unfold hex4. by rewrite H3, H2, H1, H0.
Qed.

(** The escape of a character never begins with the closing quote. *)
Lemma escape_char_head c : ∃ h t, escape_char c = h :: t ∧ h ≠ 34.
Proof.
  destruct (escape_char_cases c)
    as [[_ ->]|[[_ ->]|[[_ ->]|[[_ ->]|[[_ ->]|[[_ ->]|[[_ ->]|
        [(? & _ & ? & ->)|[[_ ->]|[_ ->]]]]]]]]]];
    unfold u_escape; simpl; eexists _, _; (split; [reflexivity|]); done || lia.
Qed.

(** The text after an escaped character determines nothing of it: the
    escapes of well-formed characters form a prefix code. *)
Lemma escape_char_prefix_inj c1 c2 (r1 r2 : list N) :
  c1 ≤ 1114111 → ¬ surrogate c1 → c2 ≤ 1114111 → ¬ surrogate c2 →
  escape_char c1 ++ r1 = escape_char c2 ++ r2 → c1 = c2 ∧ r1 = r2.
Proof.
  unfold surrogate. intros Hc1 Hs1 Hc2 Hs2.
  destruct (escape_char_cases c1)
    as [[E1 ->]|[[E1 ->]|[[E1 ->]|[[E1 ->]|[[E1 ->]|[[E1 ->]|[[E1 ->]|
        [(P1 & N1 & M1 & ->)|[[L1 ->]|[L1 ->]]]]]]]]]];
  destruct (escape_char_cases c2)
    as [[E2 ->]|[[E2 ->]|[[E2 ->]|[[E2 ->]|[[E2 ->]|[[E2 ->]|[[E2 ->]|
        [(P2 & N2 & M2 & ->)|[[L2 ->]|[L2 ->]]]]]]]]]];
  intros Heq;
  try (unfold u_escape in Heq; simpl in Heq; injection Heq; intros; subst;
       split; congruence || lia).
  - by apply u_escape_prefix_inj.
  - destruct (surrogate_pair c2) as (S1 & S2 & Q); [lia|].
    rewrite S1, S2, <- app_assoc in Heq. clear S1 S2.
    revert Heq Q. generalize ((c2 - 65536) / 1024). intros q Heq Q.
    apply u_escape_prefix_inj in Heq as [Hx _]; [exfalso|..]; lia.
  - destruct (surrogate_pair c1) as (S1 & S2 & Q); [lia|].
    rewrite S1, S2, <- app_assoc in Heq. clear S1 S2.
    revert Heq Q. generalize ((c1 - 65536) / 1024). intros q Heq Q.
    apply u_escape_prefix_inj in Heq as [Hx _]; [exfalso|..]; lia.
  - destruct (surrogate_pair c1) as (S1 & S2 & Q1); [lia|].
    destruct (surrogate_pair c2) as (T1 & T2 & Q2); [lia|].
    rewrite S1, S2, T1, T2, <- !app_assoc in Heq. clear S1 S2 T1 T2.
    pose proof (N.mod_upper_bound (c1 - 65536) 1024 ltac:(lia)) as R1.
    pose proof (N.mod_upper_bound (c2 - 65536) 1024 ltac:(lia)) as R2.
    pose proof (N.div_mod (c1 - 65536) 1024 ltac:(lia)) as D1.
    pose proof (N.div_mod (c2 - 65536) 1024 ltac:(lia)) as D2.
    revert Heq Q1 Q2 R1 R2 D1 D2.
    generalize ((c1 - 65536) / 1024), ((c1 - 65536) mod 1024),
               ((c2 - 65536) / 1024), ((c2 - 65536) mod 1024).
    intros q1 m1 q2 m2 Heq Q1 Q2 R1 R2 D1 D2.
    apply u_escape_prefix_inj in Heq as [Hq Heq]; [|lia..].
    apply u_escape_prefix_inj in Heq as [Hr Heq]; [|lia..].
    split; [lia | done].
Qed.

Lemma escape_string_inj s1 : ∀ s2 (r1 r2 : list N),
  well_formed s1 → well_formed s2 →
  (s1 ≫= escape_char) ++ 34 :: r1 = (s2 ≫= escape_char) ++ 34 :: r2 →
  s1 = s2 ∧ r1 = r2.
Proof.
  unfold well_formed.
  induction s1 as [|c1 s1 IH]; intros [|c2 s2] r1 r2 H1 H2 Heq.
  - by injection Heq as ->.
  - exfalso. rewrite bind_cons in Heq.
    destruct (escape_char_head c2) as (h & t & Hc & Hh).
    rewrite Hc in Heq. simpl in Heq. injection Heq as Hq _. congruence.
  - exfalso. rewrite bind_cons in Heq.
    destruct (escape_char_head c1) as (h & t & Hc & Hh).
    rewrite Hc in Heq. simpl in Heq. injection Heq as Hq _. congruence.
  - apply Forall_cons in H1 as [[Hc1 Hs1] H1].
    apply Forall_cons in H2 as [[Hc2 Hs2] H2].
    rewrite !bind_cons, <- !app_assoc in Heq.
    apply escape_char_prefix_inj in Heq as [-> Heq]; try done.
    apply IH in Heq as [-> ->]; done.
Qed.

(** An encoded string is self-delimiting and can be decoded: for
    well-formed texts, if two encodings followed by anything agree, then
    the texts agree and so does what follows. *)
Lemma encode_basestring_ascii_inj s1 s2 (r1 r2 : list N) :
  well_formed s1 → well_formed s2 →
  encode_basestring_ascii s1 ++ r1 = encode_basestring_ascii s2 ++ r2 →
  s1 = s2 ∧ r1 = r2.
Proof.
  intros H1 H2 Heq. unfold encode_basestring_ascii in Heq.
  simpl in Heq. injection Heq as Heq.
  rewrite <- !app_assoc in Heq. simpl in Heq.
  by eapply escape_string_inj.
Qed.

(** X10: the line determines the record.  Two records of well-formed
    texts that [format] turns into the same line have the same creation
    time text, level, logger name, message and exception text. *)
Theorem format_injective r1 r2 line :
  well_formed_record r1 → well_formed_record r2 →
  format r1 = inr line → format r2 = inr line →
  created_iso r1 = created_iso r2
  ∧ levelname r1 = levelname r2
  ∧ name r1 = name r2
  ∧ getMessage r1 = getMessage r2
  ∧ exc_info r1 = exc_info r2.
Proof.
  intros (Wi1 & Wl1 & Wn1 & Wm1 & We1) (Wi2 & Wl2 & Wn2 & Wm2 & We2).
  unfold format. intros Hf1 Hf2.
  destruct (created_iso r1) as [|iso1]; [done|].
  destruct (created_iso r2) as [|iso2]; [done|].
  destruct (getMessage r1) as [|msg1]; [done|].
  destruct (getMessage r2) as [|msg2]; [done|].
  specialize (Wi1 _ eq_refl). specialize (Wi2 _ eq_refl).
  specialize (Wm1 _ eq_refl). specialize (Wm2 _ eq_refl).
  assert (∀ iso, well_formed iso → well_formed (iso ++ of_ascii "Z")) as HZ.
  { intros iso Hiso. apply Forall_app. split; [done|].
    repeat constructor; unfold surrogate; simpl; lia. }
  injection Hf1 as <-. injection Hf2 as Heq.
  assert (∀ k (v1 v2 R1 R2 : list N),
            well_formed v1 → well_formed v2 →
            encode_basestring_ascii k ++ of_ascii ": "
              ++ encode_basestring_ascii v1 ++ R1
            = encode_basestring_ascii k ++ of_ascii ": "
              ++ encode_basestring_ascii v2 ++ R2 →
            v1 = v2 ∧ R1 = R2) as Hfield.
  { intros k v1 v2 R1 R2 W1 W2 Hkv.
    apply app_inv_head, app_inv_head in Hkv.
    by apply encode_basestring_ascii_inj. }
  destruct (exc_info r1) as [t1|] eqn:Ht1, (exc_info r2) as [t2|] eqn:Ht2;
    cbn [dumps_items app] in Heq; rewrite <- !app_assoc in Heq;
    apply Hfield in Heq as [Hiso Heq]; auto;
    apply app_inv_head in Heq;
    apply Hfield in Heq as [Hlvl Heq]; auto;
    apply app_inv_head in Heq;
    apply Hfield in Heq as [Hname Heq]; auto;
    apply app_inv_head in Heq;
    apply Hfield in Heq as [Hmsg Heq]; auto;
    apply app_inv_tail in Hiso; subst.
  - apply app_inv_head in Heq.
    apply Hfield in Heq as [-> _]; auto.
  - discriminate Heq.
  - discriminate Heq.
  - done.
Qed.

End JsonLogFacts.

(** * Further properties of the readiness probe and the logger *)

Section HealthMore.
Import Health.
Context {Conn : Type}.

(** X11: [readyz] never reports ready when the database failed.  A
    response says ready exactly when connecting and closing both
    succeeded; otherwise it says not ready and carries an error text; and
    a response is one or the other. *)
Theorem readyz_ready_sound
    (connect : exn + Conn) (close : Conn → exn + unit) r :
  readyz connect close = inr r →
  (r !! "ready" = Some (JBool true)
     ↔ ∃ conn, connect = inr conn ∧ close conn = inr ())
  ∧ (r !! "ready" = Some (JBool false) ↔ is_Some (r !! "error"))
  ∧ (r !! "ready" = Some (JBool true) ∨ r !! "ready" = Some (JBool false)).
Proof.
  unfold readyz, try_except_Exception. intros Hr.
  assert (∀ e, (<[ "error" := JStr (str e) ]> {[ "ready" := JBool false ]}
                : gmap string jval) !! "ready" = Some (JBool false)) as Hf.
  { intros e. by rewrite lookup_insert_ne, lookup_singleton_eq. }
  assert (∀ e, (<[ "error" := JStr (str e) ]> {[ "ready" := JBool false ]}
                : gmap string jval) !! "error" = Some (JStr (str e))) as He.
  { intros e. by rewrite lookup_insert_eq. }
  assert (({[ "ready" := JBool true ]} : gmap string jval) !! "error" = None)
    as Hn by (by rewrite lookup_singleton_ne).
  destruct connect as [e|conn].
  - destruct (is_Exception e); [|done]. injection Hr as <-.
    rewrite Hf, He. split_and!; [|naive_solver..].
    split; [done|]. by intros (? & ? & _).
  - destruct (close conn) as [e|[]] eqn:Hc.
    + destruct (is_Exception e); [|done]. injection Hr as <-.
      rewrite Hf, He. split_and!; [|naive_solver..].
      split; [done|]. intros (conn' & [= <-] & Hc'). congruence.
    + injection Hr as <-. rewrite Hn, lookup_singleton_eq.
      split_and!; [naive_solver| |naive_solver].
      split; [done|]. by intros [? ?].
Qed.

End HealthMore.

Section LoggerMore.
Import Logger.
Context `{StrOps}.
Implicit Types (reg : gmap string LoggerObj).

(** The two handlers a configured logger has. *)
Lemma get_logger_shape os name log_file reg lg :
  (∀ lg0, reg !! name = Some lg0 →
     handlers lg0 = []
     ∨ ∃ file, handlers lg0 =
         [RotatingFileHandler file 5242880 5 (Some JsonFormatter);
          StreamHandler (Some JsonFormatter)]) →
  (get_logger os name log_file reg).1 !! name = Some lg →
  handlers lg = []
  ∨ ∃ file, handlers lg =
      [RotatingFileHandler file 5242880 5 (Some JsonFormatter);
       StreamHandler (Some JsonFormatter)].
Proof.
  intros Hreg. unfold get_logger, getLogger.
  destruct (reg !! name) as [lg0|] eqn:Hlg.
  - destruct (Hreg lg0 eq_refl) as [Hh|[file Hh]]; rewrite Hh.
    + unfold setLevel. destruct (nameToLevel _) as [n|]; simpl.
      * destruct (makedirs os _); simpl;
          [rewrite lookup_insert_eq; intros [= <-]; by left|].
        destruct (open_file os _); simpl;
          rewrite lookup_insert_eq; intros [= <-]; simpl; rewrite ?Hh; eauto.
      * rewrite Hlg. intros [= <-]. by left.
    + simpl. rewrite Hlg. intros [= <-]. eauto.
  - simpl. unfold setLevel. destruct (nameToLevel _) as [n|]; simpl.
    + destruct (makedirs os _); simpl;
        [rewrite lookup_insert_eq; intros [= <-]; by left|].
      destruct (open_file os _); simpl;
        rewrite lookup_insert_eq; intros [= <-]; simpl; eauto.
    + rewrite lookup_insert_eq. intros [= <-]. by left.
Qed.

Lemma get_logger_other os name log_file reg other :
  other ≠ name →
  (get_logger os name log_file reg).1 !! other = reg !! other.
Proof.
  intros Hne. unfold get_logger, getLogger.
  destruct (reg !! name) as [lg0|] eqn:Hlg; simpl;
    repeat (match goal with
            | |- context [match ?x with _ => _ end] => destruct x eqn:?
            end; simpl);
    by rewrite ?lookup_insert_ne.
Qed.

(** X13: handlers never pile up.  After any sequence of calls of
    [get_logger], with any names, files and environments, starting from a
    registry without loggers, every logger has either no handler or
    exactly two: the rotating file handler (5 MiB, 5 backups) and the
    stream handler, both with the JSON formatter. *)
Theorem get_logger_never_duplicates
    (calls : list (OS * string * string)) name lg :
  foldl (λ reg call, (get_logger call.1.1 call.1.2 call.2 reg).1) ∅ calls
    !! name = Some lg →
  handlers lg = []
  ∨ ∃ file, handlers lg =
      [RotatingFileHandler file 5242880 5 (Some JsonFormatter);
       StreamHandler (Some JsonFormatter)].
Proof.
  assert (∀ reg,
            (∀ n l, reg !! n = Some l →
               handlers l = []
               ∨ ∃ file, handlers l =
                   [RotatingFileHandler file 5242880 5 (Some JsonFormatter);
                    StreamHandler (Some JsonFormatter)]) →
            ∀ n l,
              foldl (λ reg call, (get_logger call.1.1 call.1.2 call.2 reg).1)
                reg calls !! n = Some l →
              handlers l = []
              ∨ ∃ file, handlers l =
                  [RotatingFileHandler file 5242880 5 (Some JsonFormatter);
                   StreamHandler (Some JsonFormatter)]) as Hgen.
  { induction calls as [|[[os nm] file] calls IH]; intros reg Hreg n l; simpl.
    - apply Hreg.
    - apply IH. intros n' l' Hl'.
      destruct (decide (n' = nm)) as [->|Hne].
      + eapply get_logger_shape; [|exact Hl']. intros. by eapply Hreg.
      + rewrite get_logger_other in Hl' by done. by eapply Hreg. }
  apply Hgen. intros n l Hl. by rewrite lookup_empty in Hl.
Qed.


(** X15: calling [get_logger] again after a call that returned changes
    nothing, whatever the file name and the environment of the second
    call: the logger keeps its level and its handlers. *)
Theorem get_logger_second_call os os' name f f' reg reg1 :
  get_logger os name f reg = (reg1, inr name) →
  get_logger os' name f' reg1 = (reg1, inr name).
Proof.
  intros Hg.
  destruct (get_logger_configured _ _ _ _ _ Hg) as (lg & Hlg & Hh).
  unfold get_logger, getLogger. rewrite Hlg. by destruct (handlers lg).
Qed.

End LoggerMore.

(** * The moving average *)

Section SmaFacts.
Import Latency.
Context {F : Type} `{FloatOps F}.
Variable mean : list F → F.

(** X16: [sma] raises in two cases only: [ZeroDivisionError] for a window
    of 0, whatever the values, and [StatisticsError] for no values and a
    window of at least 1.  A negative window never raises. *)
Theorem sma_raises (values : list F) n e :
  sma mean values n = inl e ↔
    (n = 0 ∧ e = ZeroDivisionError)
    ∨ (values = [] ∧ 1 ≤ n
       ∧ e = ValueError "mean requires at least one data point").
Proof.
  unfold sma, statistics_mean.
  destruct (Z.ltb_spec (Z.of_nat (length values)) n) as [Hlt|Hge].
  - destruct values as [|v values]; simpl in *.
    + split; [intros [= <-]; right; split_and!; done || lia|].
      intros [[-> _]|(_ & _ & ->)]; [lia | done].
    + split; [done|]. intros [[-> _]|(? & _)]; [lia | done].
  - destruct (Z.eqb_spec n 0) as [->|Hn].
    + split; [intros [= <-]; by left|].
      intros [[_ ->]|(_ & ? & _)]; [done | lia].
    + split; [done|]. intros [[? _]|(-> & ? & _)]; [done | simpl in *; lia].
Qed.

(** X17: with a window of [n ≥ 1] and at least [n] values, [sma] is the
    sum of the last [n] values divided by [n]: older values have no
    effect. *)
Theorem sma_last_window (old window : list F) n :
  1 ≤ n → Z.of_nat (length window) = n →
  sma mean (old ++ window) n
  = inr (fdiv_int (LoadTest.py_sum window) n).
Proof.
  intros Hn Hlen. unfold sma.
  destruct (Z.ltb_spec (Z.of_nat (length (old ++ window))) n) as [Hlt|_].
  { rewrite length_app in Hlt. lia. }
  destruct (Z.eqb_spec n 0) as [?|_]; [lia|].
  do 2 f_equal. unfold slice_from.
  destruct (Z.ltb_spec (- n) 0) as [_|?]; [|lia].
  replace (Z.to_nat (Z.max (Z.of_nat (length (old ++ window)) + - n) 0))
    with (length old) by (rewrite length_app; lia).
  by rewrite drop_app_length.
Qed.

(** X18: a negative window does not count from the end: [sma] then skips
    the first [-n] values, sums the rest and divides by the negative
    [n]. *)
Theorem sma_negative_window (skipped rest : list F) n :
  n < 0 → Z.of_nat (length skipped) = - n →
  sma mean (skipped ++ rest) n
  = inr (fdiv_int (LoadTest.py_sum rest) n).
Proof.
  intros Hn Hlen. unfold sma.
  destruct (Z.ltb_spec (Z.of_nat (length (skipped ++ rest))) n) as [Hlt|_];
    [lia|].
  destruct (Z.eqb_spec n 0) as [?|_]; [lia|].
  do 2 f_equal. unfold slice_from.
  destruct (Z.ltb_spec (- n) 0) as [?|_]; [lia|].
  replace (Z.to_nat (- n)) with (length skipped) by lia.
  by rewrite drop_app_length.
Qed.

End SmaFacts.

(** * Roles and permissions *)

Section RbacFacts.
Import Rbac.
Context {U : Type} `{EqDecision U}.
Variable truthy : U → bool.
Implicit Types (t : Tables (U:=U)) (u : U) (c : Conns) (env : Env).

Lemma permission_rows_granted t u p :
  permission_rows t u p ≠ [] ↔ granted t u p.
Proof.
  unfold permission_rows, granted. split.
  - intros Hne. destruct (permission_rows t u p) as [|x l] eqn:Hrows; [done|].
    assert (x ∈ permission_rows t u p) as Hin by (rewrite Hrows; by left).
    unfold permission_rows in Hin.
    apply list_elem_of_bind in Hin as ([pid pn] & Hin & Hp).
    apply list_elem_of_bind in Hin as ([rid rpid] & Hin & Hrp).
    apply list_elem_of_bind in Hin as ([uu urid] & Hin & Hur).
    case_bool_decide as Hc; [|by apply elem_of_nil in Hin].
    simpl in Hc. destruct Hc as (-> & -> & -> & ->). eauto.
  - intros (rid & pid & Hur & Hrp & Hp) Hnil.
    assert (1 ∈ permission_rows t u p) as Hin.
    { unfold permission_rows.
      apply list_elem_of_bind. exists (pid, p). split; [|done].
      apply list_elem_of_bind. exists (rid, pid). split; [|done].
      apply list_elem_of_bind. exists (u, rid). split; [|done].
      rewrite bool_decide_eq_true_2 by done. by left. }
    unfold permission_rows in Hin. rewrite Hnil in Hin.
    by apply elem_of_nil in Hin.
Qed.

Lemma role_rows_elem t u role_name :
  role_name ∈ role_rows t u ↔
    ∃ role_id, (role_id, role_name) ∈ roles t ∧ (u, role_id) ∈ user_roles t.
Proof.
  unfold role_rows. split.
  - intros Hin.
    apply list_elem_of_bind in Hin as ([rid rn] & Hin & Hr).
    apply list_elem_of_bind in Hin as ([uu urid] & Hin & Hur).
    case_bool_decide as Hc; [|by apply elem_of_nil in Hin].
    simpl in Hc. destruct Hc as [-> ->].
    apply list_elem_of_singleton in Hin as ->. eauto.
  - intros (rid & Hr & Hur).
    apply list_elem_of_bind. exists (rid, role_name). split; [|done].
    apply list_elem_of_bind. exists (u, rid). split; [|done].
    rewrite bool_decide_eq_true_2 by done. by left.
Qed.

(** What [with_conn] returns when it does not raise is the body's value. *)
Lemma with_conn_result {A} env (body : exn + A) c c' (a : A) :
  with_conn env body c = (c', inr a) → body = inr a.
Proof.
  unfold with_conn. destruct (_get_conn env c) as [c1 [e|h]]; [done|].
  destruct (_release_conn env h c1) as [c2 [e|[]]]; [done|]. by intros [= _ ->].
Qed.

Lemma with_conn_quiet {A} env (body : exn + A) c :
  quiet env → with_conn env body c = (c, body).
Proof.
  intros (Ha & Hc & _ & Hr & Hcl). unfold with_conn, _get_conn, _release_conn.
  rewrite Ha, Hc. destruct (has_pool env); rewrite ?Hr, ?Hcl; simpl;
    by destruct c.
Qed.

(** X19: connections do not leak.  When giving a connection back does not
    raise, the three lookups leave the connections as they found them,
    whether the query returns rows or raises and whether the connection
    came from the pool or was opened for the call. *)
Theorem lookups_release_connection env t u (nm : string) c :
  release_exn env = None → close_exn env = None →
  (get_roles_for_user env t u c).1 = c
  ∧ (user_has_role env t u nm c).1 = c
  ∧ (user_has_permission env t u nm c).1 = c.
Proof.
  intros Hr Hcl.
  assert (∀ A (body : exn + A), (with_conn env body c).1 = c) as Hw.
  { intros A body. unfold with_conn, _get_conn, _release_conn.
    destruct c as [po op].
    destruct (has_pool env), (acquire_exn env) as [e|], (connect_exn env);
      simpl; rewrite ?Hr, ?Hcl; simpl; try done;
      destruct (is_Exception e); simpl; rewrite ?Hr, ?Hcl; done. }
  unfold user_has_role, get_roles_for_user, user_has_permission.
  split_and!; try apply Hw.
  pose proof (Hw _ (run_query env (role_rows t u))) as Hw'.
  by destruct (with_conn env _ c) as [c' [e|names]].
Qed.

Lemma user_has_permission_true env t u (p : string) c :
  (user_has_permission env t u p c).2 = inr true → granted t u p.
Proof.
  unfold user_has_permission.
  destruct (with_conn env _ c) as [c' r] eqn:Hw. simpl. intros ->.
  apply with_conn_result in Hw. unfold run_query in Hw.
  destruct (query_exn env); [done|]. injection Hw as Hw.
  apply permission_rows_granted.
  by destruct (permission_rows t u p).
Qed.

(** X20: a permission is held only through a role.  When
    [user_has_permission] returns [True], some [user_roles] row of the user
    names a role to which a [role_permissions] row grants a permission of
    that name; and when no driver operation raises, it returns [True] for
    every user for whom such rows exist, and [False] for the others. *)
Theorem permission_only_through_role env t u (p : string) c :
  ((user_has_permission env t u p c).2 = inr true → granted t u p)
  ∧ (quiet env →
       (granted t u p → (user_has_permission env t u p c).2 = inr true)
       ∧ (¬ granted t u p →
            (user_has_permission env t u p c).2 = inr false)).
Proof.
  split; [apply user_has_permission_true|].
  unfold user_has_permission.
  - intros Hq. rewrite with_conn_quiet by done. simpl.
    destruct Hq as (_ & _ & Hqe & _). unfold run_query. rewrite Hqe.
    rewrite <- permission_rows_granted.
    destruct (permission_rows t u p); simpl; split; try done.
    intros Hn. by destruct Hn.
Qed.

(** X21: [user_has_role], when it returns, says whether a role of that
    name is joined to the user; and under referential integrity (every
    [role_id] of [user_roles] is the id of a role) a user who holds a
    permission has at least one role. *)
Theorem role_lookup_meaning env t u (role_name : string) c b :
  (user_has_role env t u role_name c).2 = inr b →
  (b = true ↔
     ∃ role_id,
       (role_id, role_name) ∈ roles t ∧ (u, role_id) ∈ user_roles t)
  ∧ ((∀ u' role_id, (u', role_id) ∈ user_roles t →
        ∃ nm, (role_id, nm) ∈ roles t) →
     ∀ p, granted t u p →
       ∃ names, (get_roles_for_user env t u c).2 = inr names ∧ names ≠ []).
Proof.
  unfold user_has_role, get_roles_for_user.
  destruct (with_conn env _ c) as [c' [e|names]] eqn:Hw; [done|].
  simpl. intros [= <-].
  apply with_conn_result in Hw. unfold run_query in Hw.
  destruct (query_exn env); [done|]. injection Hw as <-.
  split.
  - rewrite bool_decide_eq_true. apply role_rows_elem.
  - intros Hfk p (rid & pid & Hur & _).
    eexists. split; [done|].
    destruct (Hfk _ _ Hur) as [nm Hnm].
    assert (nm ∈ role_rows t u) as Hin by (apply role_rows_elem; eauto).
    intros Hnil. rewrite Hnil in Hin. by apply elem_of_nil in Hin.
Qed.

Lemma check_permission_ran {A} env t p invalid (id : option U) (body : A)
    c c' (r : A) :
  check_permission truthy env t p invalid id body c = (c', Ran r) →
  r = body ∧ ∃ u, id = Some u ∧ truthy u = true ∧ granted t u p.
Proof.
  unfold check_permission. destruct id as [u|]; [|done].
  destruct (truthy u) eqn:Htr; [|done].
  destruct (user_has_permission env t u p c) as [c1 [e|[]]] eqn:Hp;
    try done.
  intros [= _ <-]. split; [done|]. exists u. split_and!; try done.
  apply (user_has_permission_true env t u p c).
  by rewrite Hp.
Qed.


(** X22: the endpoint body runs only for authorised users.  Under both
    guards (the decorator [requires_permission] and the dependency built by
    [inject_get_current_user]), the body runs only if the request carries a
    current user whose identifier is true and who holds the permission
    through one of their roles. *)
Theorem guards_sound {A} env t (p : string) c c' :
  (∀ args kw (fn r : A),
     wrapped truthy env t p args kw fn c = (c', Ran r) →
     r = fn
     ∧ ∃ cu u,
         (first_request args = Some (Some cu)
          ∨ first_request args = None ∧ kw = KwRequest (Some cu))
         ∧ checked_id truthy cu u ∧ granted t u p)
  ∧ (∀ current_user r,
       _dep truthy env t p current_user c = (c', Ran r) →
       r = true
       ∧ ∃ cu u,
           current_user = Some cu ∧ checked_id truthy cu u ∧ granted t u p).
Proof.
  split.
  - intros args kw fn r. unfold wrapped.
    intros Hw.
    assert (∃ cu, (first_request args = Some (Some cu)
                   ∨ first_request args = None ∧ kw = KwRequest (Some cu))
                  ∧ user_truthy cu = true
                  ∧ check_permission truthy env t p "Invalid user"
                      (py_or truthy (getattr_id cu)
                         match cu with
                         | UserObj _ => None
                         | UserDict d => d !! "id"
                         end) fn c = (c', Ran r))
      as (cu & Hreq & _ & Hc).
    { destruct (first_request args) as [[cu|]|]; try done.
      - exists cu. destruct (user_truthy cu); [auto | done].
      - destruct kw as [|[cu|]|]; try done.
        exists cu. destruct (user_truthy cu); [auto | done]. }
    apply check_permission_ran in Hc as (-> & u & Hid & Htr & Hg).
    split; [done|]. exists cu, u. split; [done|]. split; [|done].
    split; [done|]. unfold py_or in Hid.
    destruct (truthy_opt truthy (getattr_id cu)) eqn:Hto; [by left|].
    destruct cu as [id|d]; [done|]. right. eauto.
  - intros current_user r. unfold _dep.
    destruct current_user as [cu|]; [|done].
    destruct (truthy_opt truthy (getattr_id cu)) eqn:Hto.
    + intros (-> & u & Hid & Htr & Hg)%check_permission_ran.
      split; [done|]. exists cu, u. split; [done|]. split; [|done].
      split; [done|]. by left.
    + destruct cu as [id|d]; [done|].
      intros (-> & u & Hid & Htr & Hg)%check_permission_ran.
      split; [done|]. exists (UserDict d), u. split; [done|].
      split; [|done]. split; [done|]. right. eauto.
Qed.


End RbacFacts.

(** * Concrete instances *)

Section MoreRuns.
Local Open Scope N_scope.

(** A record whose message has a quote, a line feed, an accented letter and
    a character above the basic plane. *)
Lemma format_one_ascii_line_witness :
  ∃ line,
    JsonLog.format
      {| JsonLog.created_iso := inr (JsonLog.of_ascii "2024-05-01T10:00:00");
         JsonLog.levelname := JsonLog.of_ascii "INFO";
         JsonLog.name := JsonLog.of_ascii "app";
         JsonLog.getMessage := inr [34; 10; 233; 128512];
         JsonLog.exc_info := None |} = inr line
    ∧ Forall JsonLog.printable line.
Proof.
  match goal with
  | |- ∃ line, JsonLog.format ?r = _ ∧ _ =>
      exists (match JsonLog.format r with inr l => l | inl _ => [] end);
      split; [reflexivity|];
      apply (format_one_ascii_line r); reflexivity
  end.
Defined.

Lemma format_injective_witness :
  JsonLog.getMessage
    {| JsonLog.created_iso := inr (JsonLog.of_ascii "2024-05-01T10:00:00");
       JsonLog.levelname := JsonLog.of_ascii "ERROR";
       JsonLog.name := JsonLog.of_ascii "app";
       JsonLog.getMessage := inr [34; 10; 233; 128512];
       JsonLog.exc_info := Some (JsonLog.of_ascii "Traceback") |}
  = JsonLog.getMessage
      {| JsonLog.created_iso := inr (JsonLog.of_ascii "2024-05-01T10:00:00");
         JsonLog.levelname := JsonLog.of_ascii "ERROR";
         JsonLog.name := JsonLog.of_ascii "app";
         JsonLog.getMessage := inr [34; 10; 233; 128512];
         JsonLog.exc_info := Some (JsonLog.of_ascii "Traceback") |}.
Proof.
  assert (∀ s : list N,
            Forall (λ c, c ≤ 1114111 ∧ ¬ JsonLog.surrogate c) s →
            JsonLog.well_formed s) as Hwf by done.
  assert (JsonLog.well_formed_record
            {| JsonLog.created_iso :=
                 inr (JsonLog.of_ascii "2024-05-01T10:00:00");
               JsonLog.levelname := JsonLog.of_ascii "ERROR";
               JsonLog.name := JsonLog.of_ascii "app";
               JsonLog.getMessage := inr [34; 10; 233; 128512];
               JsonLog.exc_info := Some (JsonLog.of_ascii "Traceback") |})
    as Hr.
  { unfold JsonLog.well_formed_record. simpl.
    split_and!; try (intros ? [= <-]); apply Hwf;
      repeat constructor; unfold JsonLog.surrogate; simpl; lia. }
  exact (proj1 (proj2 (proj2 (proj2
           (format_injective _ _ _ Hr Hr eq_refl eq_refl))))).
Defined.

Local Close Scope N_scope.

Lemma readyz_ready_sound_witness :
  ∃ r, Health.readyz (Conn:=unit) (inr ()) (λ _, inr ()) = inr r
    ∧ (r !! "ready" = Some (Health.JBool false) ↔ is_Some (r !! "error")).
Proof.
  eexists. split; [reflexivity|].
  exact (proj1 (proj2 (readyz_ready_sound (Conn:=unit) (inr ()) (λ _, inr ())
                         _ eq_refl))).
Defined.

Lemma get_logger_never_duplicates_witness :
  ∃ lg,
    foldl (λ reg call,
             (Logger.get_logger call.1.1 call.1.2 call.2 reg).1) ∅
      [({| Logger.LOG_LEVEL := Some "debug"; Logger.dirname := λ _, "logs";
           Logger.makedirs := λ _, None; Logger.open_file := λ _, None |},
        "app", "logs/app.log");
       ({| Logger.LOG_LEVEL := None; Logger.dirname := λ _, "other";
           Logger.makedirs := λ _, None; Logger.open_file := λ _, None |},
        "app", "other/app.log")]
      !! "app" = Some lg
    ∧ (Logger.handlers lg = []
       ∨ ∃ file, Logger.handlers lg =
           [Logger.RotatingFileHandler file 5242880 5
              (Some Logger.JsonFormatter);
            Logger.StreamHandler (Some Logger.JsonFormatter)]).
Proof.
  match goal with
  | |- ∃ lg, foldl _ ∅ ?calls !! ?name = Some lg ∧ _ =>
      pose proof (get_logger_never_duplicates calls name) as Hd
  end.
  eexists. split; [vm_compute; reflexivity|].
  apply Hd. vm_compute. reflexivity.
Defined.


Lemma get_logger_second_call_witness :
  ∃ reg1,
    Logger.get_logger
      {| Logger.LOG_LEVEL := None; Logger.dirname := λ _, "logs";
         Logger.makedirs := λ _, None; Logger.open_file := λ _, None |}
      "app" "logs/app.log" ∅ = (reg1, inr "app")
    ∧ Logger.get_logger
        {| Logger.LOG_LEVEL := Some "debug"; Logger.dirname := λ _, "tmp";
           Logger.makedirs := λ _, Some (OSError "Permission denied");
           Logger.open_file := λ _, None |}
        "app" "tmp/other.log" reg1 = (reg1, inr "app").
Proof.
  match goal with
  | |- ∃ reg1, Logger.get_logger ?os ?nm ?f ?reg = _
               ∧ Logger.get_logger ?os' _ ?f' _ = _ =>
      pose proof (get_logger_second_call os os' nm f f' reg) as Hs
  end.
  eexists. split; [reflexivity|]. apply Hs. reflexivity.
Defined.

Lemma sma_last_window_witness :
  Latency.sma (λ _, 0%Q) ([9; 9; 9] ++ [1; 2; 3])%Q 3
  = inr (fdiv_int (LoadTest.py_sum [1; 2; 3]%Q) 3).
Proof.
  apply (sma_last_window (F:=Q)); [lia | reflexivity].
Defined.

Lemma sma_negative_window_witness :
  Latency.sma (λ _, 0%Q) ([9; 9] ++ [1; 2; 3])%Q (-2)
  = inr (fdiv_int (LoadTest.py_sum [1; 2; 3]%Q) (-2)).
Proof.
  apply (sma_negative_window (F:=Q)); [lia | reflexivity].
Defined.

End MoreRuns.

Section RbacRuns.
Import Rbac.

Lemma lookups_release_connection_witness :
  (get_roles_for_user (U:=nat)
     {| has_pool := true; acquire_exn := None; connect_exn := None;
        query_exn := Some (PostgresError "relation roles does not exist");
        release_exn := None; close_exn := None |}
     {| roles := [(1, "admin")]; user_roles := [(7%nat, 1)];
        permissions := [(10, "users.delete")];
        role_permissions := [(1, 10)] |}
     7%nat {| pool_out := 2; opened := 0 |}).1
  = {| pool_out := 2; opened := 0 |}.
Proof.
  match goal with
  | |- (get_roles_for_user ?env ?t ?u ?c).1 = _ =>
      exact (proj1 (lookups_release_connection env t u "admin" c
                      eq_refl eq_refl))
  end.
Defined.

Lemma permission_only_through_role_witness :
  (user_has_permission (U:=nat)
     {| has_pool := false; acquire_exn := None; connect_exn := None;
        query_exn := None; release_exn := None; close_exn := None |}
     {| roles := [(1, "admin")]; user_roles := [(7%nat, 1)];
        permissions := [(10, "users.delete")];
        role_permissions := [(1, 10)] |}
     7%nat "users.delete" {| pool_out := 0; opened := 0 |}).2
  = inr true.
Proof.
  apply (permission_only_through_role (U:=nat)).
  - by repeat split.
  - exists 1, 10. simpl. split_and!; by left.
Defined.

Lemma role_lookup_meaning_witness :
  (user_has_role (U:=nat)
     {| has_pool := false; acquire_exn := None; connect_exn := None;
        query_exn := None; release_exn := None; close_exn := None |}
     {| roles := [(1, "admin"); (2, "viewer")]; user_roles := [(7%nat, 1)];
        permissions := []; role_permissions := [] |}
     7%nat "viewer" {| pool_out := 0; opened := 0 |}).2 = inr false
  ∧ (false = true ↔
       ∃ role_id : Z,
         (role_id, "viewer") ∈ [(1, "admin"); (2, "viewer")]
         ∧ (7%nat, role_id) ∈ [(7%nat, 1)]).
Proof.
  split; [reflexivity|].
  exact (proj1 (role_lookup_meaning (U:=nat)
                  {| has_pool := false; acquire_exn := None;
                     connect_exn := None; query_exn := None;
                     release_exn := None; close_exn := None |}
                  {| roles := [(1, "admin"); (2, "viewer")];
                     user_roles := [(7%nat, 1)];
                     permissions := []; role_permissions := [] |}
                  7%nat "viewer" {| pool_out := 0; opened := 0 |} false
                  eq_refl)).
Defined.

Lemma guards_sound_witness :
  ∃ c' r,
    wrapped (U:=nat) (λ n, negb (n =? 0)%nat)
      {| has_pool := true; acquire_exn := None; connect_exn := None;
         query_exn := None; release_exn := None; close_exn := None |}
      {| roles := [(1, "admin")]; user_roles := [(7%nat, 1)];
         permissions := [(10, "users.delete")];
         role_permissions := [(1, 10)] |}
      "users.delete" [ArgOther; ArgRequest (Some (UserObj (Some 7%nat)))]
      KwFalse "deleted" {| pool_out := 0; opened := 0 |} = (c', Ran r)
    ∧ r = "deleted".
Proof.
  eexists _, _. split; [reflexivity|].
  exact (proj1 (proj1 (guards_sound (U:=nat) (λ n, negb (n =? 0)%nat)
                         {| has_pool := true; acquire_exn := None;
                            connect_exn := None; query_exn := None;
                            release_exn := None; close_exn := None |}
                         {| roles := [(1, "admin")];
                            user_roles := [(7%nat, 1)];
                            permissions := [(10, "users.delete")];
                            role_permissions := [(1, 10)] |}
                         "users.delete" {| pool_out := 0; opened := 0 |} _)
                  [ArgOther; ArgRequest (Some (UserObj (Some 7%nat)))]
                  KwFalse "deleted" _ eq_refl)).
Defined.


End RbacRuns.
